(** * Binary refinery: the [vstack] and [recode] units

    A shallow embedding of [refinery/units/formats/exe/vstack.py] (the
    stack-string extractor: stack placement, the four emulator hooks, the
    harvest of recorded writes) and of [refinery/units/encoding/recode.py]
    (the choice of the input codec), with the properties of the specification
    stated over the embedding.

    Python integers are unbounded and are modelled by [Z]; [&], [<<] and
    [%] are [Z.land], [Z.shiftl] and [Z.modulo], which agree with Python on
    negative operands too.  Exceptions are values of [exn], carried by the
    error monad [res]. *)

From Stdlib Require Import ZArith Lia Bool String.
From Stdlib.Strings Require Import Byte.
From stdpp Require Import base decidable option list sorting gmap sets strings.

Open Scope Z_scope.

(** ** Exceptions *)

Module Py.

(** The exception classes that the two units raise, catch or let through. *)
Inductive exn : Type :=
| KeyError
| IndexError
| ValueError
| LookupError
| RuntimeError
| KeyboardInterrupt
| UcError
| CsError.

Inductive res (A : Type) : Type :=
| Ok (a : A)
| Raise (e : exn).
Arguments Ok {A} a.
Arguments Raise {A} e.

#[global] Instance res_ret : MRet res := @Ok.
#[global] Instance res_bind : MBind res := fun A B k m =>
  match m with
  | Ok a => k a
  | Raise e => Raise e
  end.

(** [x in range(lo, hi)] for integers, and [x in Range(lo, hi)]. *)
Definition in_range (x lo hi : Z) : bool :=
  bool_decide (lo ≤ x) && bool_decide (x < hi).

End Py.

Import Py.

(** ** The interval set of the write tracker *)

Module IntervalTree.

(** An [Interval(begin, end, data)] with [data = None], as [vstack] stores
    it: the pair of its bounds. *)
Definition ibegin (i : Z * Z) : Z := i.1.
Definition iend (i : Z * Z) : Z := i.2.

(** [Interval.is_null]: the interval holds no point. *)
Definition is_null (i : Z * Z) : bool := bool_decide (iend i ≤ ibegin i).

(** The order [sorted] uses on intervals: by [begin], then by [end]. *)
Definition interval_le (i j : Z * Z) : Prop :=
  ibegin i < ibegin j ∨ (ibegin i = ibegin j ∧ iend i ≤ iend j).

#[global] Instance interval_le_dec : RelDecision interval_le.
Proof. intros i j. unfold interval_le. apply _. Defined.

(** [IntervalTree.addi(begin, end)]: the tree is a set of intervals, so an
    interval that is already there is not added again; a null interval is
    refused with [ValueError]. *)
Definition addi (b e : Z) (t : gset (Z * Z)) : res (gset (Z * Z)) :=
  if bool_decide ((b, e) ∈ t) then Ok t
  else if is_null (b, e) then Raise ValueError
  else Ok ({[ (b, e) ]} ∪ t).

(** Modelled from the spec: [IntervalTree.merge_overlaps] belongs to the
    [intervaltree] package, which is not among the sources.  The spec has
    it merge overlapping entries, and has the tracker store one more byte
    than was written because ranges that only share an endpoint would
    otherwise stay apart.  The package's signature is
    [merge_overlaps(data_reducer=None, data_initializer=None, strict=True)]:
    the intervals are sorted, and each one is folded into the series
    before it when it begins before that series ends (or, when [strict]
    is off, where it ends). *)
Fixpoint merge_series (strict : bool) (lower : Z * Z) (rest : list (Z * Z))
  : list (Z * Z) :=
  match rest with
  | [] => [lower]
  | higher :: rest' =>
      if bool_decide (ibegin higher < iend lower)
         || (negb strict && bool_decide (ibegin higher = iend lower))
      then merge_series strict
             (ibegin lower, Z.max (iend lower) (iend higher)) rest'
      else lower :: merge_series strict higher rest'
  end.

Definition merge_overlaps (strict : bool) (t : gset (Z * Z)) : gset (Z * Z) :=
  match merge_sort interval_le (elements t) with
  | [] => t
  | first :: rest => list_to_set (merge_series strict first rest)
  end.

(** What [vstack] does to record a write (the last two statements of
    [_hook_mem_write] before the log line):
    [state.writes.addi(address, address + size + 1)] and then
    [state.writes.merge_overlaps()], with the default [strict=True]. *)
Definition record (address size : Z) (t : gset (Z * Z)) : res (gset (Z * Z)) :=
  t' ← addi address (address + size + 1) t;
  Ok (merge_overlaps true t').

(** A sequence of recorded writes [(address, size)], oldest first. *)
Fixpoint record_all (ws : list (Z * Z)) (t : gset (Z * Z)) : res (gset (Z * Z)) :=
  match ws with
  | [] => Ok t
  | w :: ws' => t' ← record w.1 w.2 t; record_all ws' t'
  end.

(** An interval that holds a point. *)
Definition proper (i : Z * Z) : Prop := ibegin i < iend i.

(** [i] lies wholly before [j], both holding a point; when [strict] is
    off there is a gap between them. *)
Definition before (strict : bool) (i j : Z * Z) : Prop :=
  proper i ∧ proper j ∧
  if strict then iend i ≤ ibegin j else iend i < ibegin j.

(** Two intervals share a point. *)
Definition overlaps (i j : Z * Z) : Prop :=
  ibegin i < iend j ∧ ibegin j < iend i.

(** Two intervals share an endpoint: one ends where the other begins. *)
Definition touches (i j : Z * Z) : Prop :=
  iend i = ibegin j ∨ iend j = ibegin i.

(** A point that some stored interval holds. *)
Definition covered (x : Z) (t : gset (Z * Z)) : Prop :=
  ∃ i, i ∈ t ∧ ibegin i ≤ x < iend i.

(** A tree of proper intervals of which no two overlap. *)
Definition well_formed (t : gset (Z * Z)) : Prop :=
  (∀ i, i ∈ t → proper i) ∧
  (∀ i j, i ∈ t → j ∈ t → i ≠ j → ¬ overlaps i j).

End IntervalTree.

Import IntervalTree.

(** ** The order in which a Python set iterates

    Modelled from CPython (3.8 and later), which is not among the sources:
    the tree keeps its intervals in a Python [set], [iter(tree)] iterates
    that set, and [merge_overlaps] ends by building the set anew from the
    sorted list of the merged intervals.  A set iterates in the order of
    the slots of its hash table.  The hash of an [Interval] is the hash
    of the tuple [(begin, end)]. *)

Module CPython.

(** Arithmetic of [Py_uhash_t], 64 bits. *)
Definition wrap (x : Z) : Z := x `mod` 2 ^ 64.

Definition XXPRIME_1 : Z := 11400714785074694791.
Definition XXPRIME_2 : Z := 14029467366897019727.
Definition XXPRIME_5 : Z := 2870177450012600261.

(** [hash(n)] of an integer, as an unsigned word: the value modulo
    [2^61 - 1], with the sign of [n], and never [-1]. *)
Definition hash_int (n : Z) : Z :=
  let modulus := 2 ^ 61 - 1 in
  if bool_decide (0 ≤ n) then n `mod` modulus
  else
    let h := - ((- n) `mod` modulus) in
    wrap (if bool_decide (h = -1) then -2 else h).

Definition rotate (x : Z) : Z :=
  wrap (Z.lor (Z.shiftl x 31) (Z.shiftr x 33)).

Definition hash_lane (acc item : Z) : Z :=
  wrap (rotate (wrap (acc + hash_int item * XXPRIME_2)) * XXPRIME_1).

(** [hash((begin, end))]. *)
Definition hash_pair (key : Z * Z) : Z :=
  let acc := hash_lane (hash_lane XXPRIME_5 key.1) key.2 in
  let acc := wrap (acc + Z.lxor 2 (Z.lxor XXPRIME_5 3527539)) in
  if bool_decide (acc = 2 ^ 64 - 1) then 1546275796 else acc.

Definition LINEAR_PROBES : nat := 9.
Definition PERTURB_SHIFT : Z := 5.

(** A hash table: each slot is unused or holds a key with its hash. *)
Inductive slot_found : Type :=
| Unused (i : nat)
| Active.

(** The slots [i], [i + 1], ..., [i + probes], in turn. *)
Fixpoint linear_probe (probes : nat) (table : list (option ((Z * Z) * Z)))
    (i : nat) (key : Z * Z) : option slot_found :=
  match table !! i with
  | Some None => Some (Unused i)
  | Some (Some (k, _)) =>
      if bool_decide (k = key) then Some Active
      else match probes with
           | O => None
           | S probes' => linear_probe probes' table (S i) key
           end
  | None => None
  end.

(** The probe sequence of [set_add_entry] and [set_insert_clean]; it
    comes to an unused slot long before [fuel] is spent. *)
Fixpoint probe (fuel : nat) (table : list (option ((Z * Z) * Z)))
    (mask perturb i : Z) (key : Z * Z) : slot_found :=
  match fuel with
  | O => Active
  | S fuel' =>
      let probes :=
        if bool_decide (i + Z.of_nat LINEAR_PROBES ≤ mask)
        then LINEAR_PROBES else O in
      match linear_probe probes table (Z.to_nat i) key with
      | Some found => found
      | None =>
          let perturb' := Z.shiftr perturb PERTURB_SHIFT in
          probe fuel' table mask perturb'
            (Z.land (i * 5 + 1 + perturb') mask) key
      end
  end.

Definition find_slot (table : list (option ((Z * Z) * Z))) (key : Z * Z)
  : slot_found :=
  let mask := Z.of_nat (length table) - 1 in
  let h := hash_pair key in
  probe (128 + 2 * length table) table mask h (Z.land h mask) key.

(** The keys of a table, in the order of its slots. *)
Definition entries (table : list (option ((Z * Z) * Z))) : list (Z * Z) :=
  omap (fun e => fst <$> e) table.

(** [set_insert_clean]. *)
Definition insert_clean (table : list (option ((Z * Z) * Z))) (key : Z * Z)
  : list (option ((Z * Z) * Z)) :=
  match find_slot table key with
  | Unused i => <[i := Some (key, hash_pair key)]> table
  | Active => table
  end.

(** The size that [set_table_resize] picks: the first power of two above
    [minused], from 8 on. *)
Fixpoint new_size (fuel : nat) (size : nat) (minused : Z) : nat :=
  match fuel with
  | O => size
  | S fuel' =>
      if bool_decide (Z.of_nat size ≤ minused)
      then new_size fuel' (2 * size) minused
      else size
  end.

Definition set_table_resize (table : list (option ((Z * Z) * Z)))
    (minused : Z) : list (option ((Z * Z) * Z)) :=
  foldl insert_clean (replicate (new_size 64 8 minused) None) (entries table).

(** [set_add_entry]: a key that is there already changes nothing; a new
    key takes the unused slot, and the table grows when three fifths of it
    are filled. *)
Definition set_add_entry (table : list (option ((Z * Z) * Z))) (key : Z * Z)
  : list (option ((Z * Z) * Z)) :=
  match find_slot table key with
  | Active => table
  | Unused i =>
      let table' := <[i := Some (key, hash_pair key)]> table in
      let fill := Z.of_nat (length (entries table')) in
      let mask := Z.of_nat (length table) - 1 in
      if bool_decide (fill * 5 < mask * 3) then table'
      else set_table_resize table'
             (if bool_decide (50000 < fill) then fill * 2 else fill * 4)
  end.

(** [iter(set(keys))]. *)
Definition iter_set (keys : list (Z * Z)) : list (Z * Z) :=
  entries (foldl set_add_entry (replicate 8 None) keys).

(** [iter(tree)] after [merge_overlaps], which built the set from the
    sorted list of the intervals. *)
Definition iter_tree (t : gset (Z * Z)) : list (Z * Z) :=
  iter_set (merge_sort interval_le (elements t)).

End CPython.

(** ** The loader: [refinery.lib.executable] *)

Module Executable.

(** Modelled from the spec: the [Arch] enumeration is not among the
    sources; its members are the tags that the tables of [vstack] name,
    which are the architectures the spec lists as supported. *)
Inductive Arch : Type :=
| X8632 | X8664 | ARM32 | ARM64
| MIPS16 | MIPS32 | MIPS64
| PPC32 | PPC64
| SPARC32 | SPARC64.

#[global] Instance Arch_eq_dec : EqDecision Arch.
Proof. solve_decision. Defined.

(** Modelled from the spec: [align(alignment, value, down=False)] is not
    among the sources.  The spec uses it as [align_up] and, with
    [down=True], as [align_down]: the nearest multiple of [alignment] that
    is not below (not above) [value].  An alignment below 2 has nothing
    to round. *)
Definition align (alignment value : Z) (down : bool) : Z :=
  if bool_decide (2 ≤ alignment) then
    let incomplete := value `mod` alignment in
    if bool_decide (0 < incomplete) then
      if down then value - incomplete else value - incomplete + alignment
    else value
  else value.

(** The view of the loaded image that [vstack] uses.  The loader is an
    external collaborator: what it reports is a field here.  A segment is
    taken by its virtual range [(lower, upper)], half-open. *)
Record Executable : Type := {
  pointer_size : Z;
  arch : Arch;
  segments : list (Z * Z);
  image_defined_address_space : Z * Z;
  location_from_address : Z → res (Z * Z);
}.

(** The loader's contract for the address space: it spans every segment. *)
Definition spans_segments (exe : Executable) : Prop :=
  ∀ seg, seg ∈ segments exe →
    (image_defined_address_space exe).1 ≤ seg.1 ∧
    seg.2 ≤ (image_defined_address_space exe).2.

End Executable.

Import Executable.

(** ** The emulator and disassembler constants that the tables name *)

Module Unicorn.

Inductive UcArch : Type :=
| UC_ARCH_X86 | UC_ARCH_ARM | UC_ARCH_MIPS | UC_ARCH_PPC | UC_ARCH_SPARC.

Inductive UcMode : Type :=
| UC_MODE_16 | UC_MODE_32 | UC_MODE_64
| UC_MODE_ARM | UC_MODE_THUMB | UC_MODE_V9.

Inductive Reg : Type :=
| UC_X86_REG_ESP | UC_X86_REG_RSP
| UC_ARM_REG_SP | UC_MIPS_REG_SP | UC_SPARC_REG_SP
| UC_X86_REG_EAX | UC_X86_REG_EBX | UC_X86_REG_ECX | UC_X86_REG_EDX
| UC_X86_REG_ESI | UC_X86_REG_EDI | UC_X86_REG_EBP
| UC_X86_REG_RAX | UC_X86_REG_RBX | UC_X86_REG_RCX | UC_X86_REG_RDX
| UC_X86_REG_RSI | UC_X86_REG_RDI | UC_X86_REG_RBP
| UC_X86_REG_R8 | UC_X86_REG_R9 | UC_X86_REG_R10 | UC_X86_REG_R11
| UC_X86_REG_R12 | UC_X86_REG_R13 | UC_X86_REG_R14 | UC_X86_REG_R15.

#[global] Instance Reg_eq_dec : EqDecision Reg.
Proof. solve_decision. Defined.

Inductive CsArch : Type :=
| CS_ARCH_X86 | CS_ARCH_ARM | CS_ARCH_MIPS | CS_ARCH_PPC | CS_ARCH_SPARC.

Inductive CsMode : Type :=
| CS_MODE_16 | CS_MODE_32 | CS_MODE_64
| CS_MODE_ARM | CS_MODE_THUMB | CS_MODE_V9.

End Unicorn.

Import Unicorn.

(** ** The [vstack] unit *)

Module Vstack.

(** [self.args].  The two [Arg.Bounds] arguments are used by the unit
    only through [x in bounds[...]]; [bounds] is not among the sources,
    and the user-supplied range is taken as that membership test. *)
Record Args : Type := {
  args_address : list Z;
  args_stop : option Z;
  patch_range : Z → bool;
  write_range : Z → bool;
  wait : Z;
  calls_wait : bool;
  stack_size : Z;
  block_size : Z;
}.

(** [EmuState].  The fields [executable] and [disassembler] reach the
    hooks through [state.disassemble(address, size)] only, whose result
    the code hook tests for truth: [disassembles] is that test. *)
Record EmuState : Type := {
  writes : gset (Z * Z);
  address : Z;
  disassembles : Z → Z → bool;
  waiting : Z;
  callstack : list Z;
  retaddr : option Z;
  stop : option Z;
  previous_address : Z;
  sp_register : Reg;
  stack_ceiling : Z;
}.

Definition set_writes (v : gset (Z * Z)) (s : EmuState) : EmuState :=
  {| writes := v; address := address s; disassembles := disassembles s;
     waiting := waiting s; callstack := callstack s; retaddr := retaddr s;
     stop := stop s; previous_address := previous_address s;
     sp_register := sp_register s; stack_ceiling := stack_ceiling s |}.

Definition set_address (v : Z) (s : EmuState) : EmuState :=
  {| writes := writes s; address := v; disassembles := disassembles s;
     waiting := waiting s; callstack := callstack s; retaddr := retaddr s;
     stop := stop s; previous_address := previous_address s;
     sp_register := sp_register s; stack_ceiling := stack_ceiling s |}.

Definition set_waiting (v : Z) (s : EmuState) : EmuState :=
  {| writes := writes s; address := address s; disassembles := disassembles s;
     waiting := v; callstack := callstack s; retaddr := retaddr s;
     stop := stop s; previous_address := previous_address s;
     sp_register := sp_register s; stack_ceiling := stack_ceiling s |}.

Definition set_callstack (v : list Z) (s : EmuState) : EmuState :=
  {| writes := writes s; address := address s; disassembles := disassembles s;
     waiting := waiting s; callstack := v; retaddr := retaddr s;
     stop := stop s; previous_address := previous_address s;
     sp_register := sp_register s; stack_ceiling := stack_ceiling s |}.

Definition set_retaddr (v : option Z) (s : EmuState) : EmuState :=
  {| writes := writes s; address := address s; disassembles := disassembles s;
     waiting := waiting s; callstack := callstack s; retaddr := v;
     stop := stop s; previous_address := previous_address s;
     sp_register := sp_register s; stack_ceiling := stack_ceiling s |}.

Definition set_previous_address (v : Z) (s : EmuState) : EmuState :=
  {| writes := writes s; address := address s; disassembles := disassembles s;
     waiting := waiting s; callstack := callstack s; retaddr := retaddr s;
     stop := stop s; previous_address := v;
     sp_register := sp_register s; stack_ceiling := stack_ceiling s |}.

Definition set_stack_ceiling (v : Z) (s : EmuState) : EmuState :=
  {| writes := writes s; address := address s; disassembles := disassembles s;
     waiting := waiting s; callstack := callstack s; retaddr := retaddr s;
     stop := stop s; previous_address := previous_address s;
     sp_register := sp_register s; stack_ceiling := v |}.

(** *** The architecture tables *)

(** [{...}[arch]]: a dict display keeps the last binding of a key, and
    subscripting a key that is not bound raises [KeyError]. *)
Fixpoint getitem {V : Type} (d : list (Arch * V)) (k : Arch) : res V :=
  match d with
  | [] => Raise KeyError
  | (k', v) :: d' =>
      match getitem d' k with
      | Ok v' => Ok v'
      | Raise _ => if bool_decide (k = k') then Ok v else Raise KeyError
      end
  end.

Definition _uc_arch (a : Arch) : res (UcArch * UcMode) :=
  getitem [
    (X8632,   (UC_ARCH_X86,   UC_MODE_32));
    (X8664,   (UC_ARCH_X86,   UC_MODE_64));
    (ARM32,   (UC_ARCH_ARM,   UC_MODE_ARM));
    (ARM64,   (UC_ARCH_ARM,   UC_MODE_THUMB));
    (MIPS16,  (UC_ARCH_MIPS,  UC_MODE_16));
    (MIPS32,  (UC_ARCH_MIPS,  UC_MODE_32));
    (MIPS64,  (UC_ARCH_MIPS,  UC_MODE_64));
    (PPC32,   (UC_ARCH_PPC,   UC_MODE_32));
    (PPC64,   (UC_ARCH_PPC,   UC_MODE_64));
    (SPARC32, (UC_ARCH_SPARC, UC_MODE_32));
    (SPARC64, (UC_ARCH_SPARC, UC_MODE_V9))
  ] a.

Definition _cs_arch (a : Arch) : res (CsArch * CsMode) :=
  getitem [
    (X8632,   (CS_ARCH_X86,   CS_MODE_32));
    (X8664,   (CS_ARCH_X86,   CS_MODE_64));
    (ARM32,   (CS_ARCH_ARM,   CS_MODE_ARM));
    (ARM64,   (CS_ARCH_ARM,   CS_MODE_THUMB));
    (MIPS16,  (CS_ARCH_MIPS,  CS_MODE_16));
    (MIPS32,  (CS_ARCH_MIPS,  CS_MODE_32));
    (MIPS64,  (CS_ARCH_MIPS,  CS_MODE_64));
    (PPC32,   (CS_ARCH_PPC,   CS_MODE_32));
    (PPC64,   (CS_ARCH_PPC,   CS_MODE_64));
    (SPARC32, (CS_ARCH_SPARC, CS_MODE_32));
    (SPARC64, (CS_ARCH_SPARC, CS_MODE_V9))
  ] a.

(** The dict display that [process] subscripts for the stack pointer,
    with [Arch.ARM32] bound twice as in the source. *)
Definition sp_table : list (Arch * Reg) := [
  (X8632,   UC_X86_REG_ESP);
  (X8664,   UC_X86_REG_RSP);
  (ARM32,   UC_ARM_REG_SP);
  (ARM32,   UC_ARM_REG_SP);
  (MIPS16,  UC_MIPS_REG_SP);
  (MIPS32,  UC_MIPS_REG_SP);
  (MIPS64,  UC_MIPS_REG_SP);
  (SPARC32, UC_SPARC_REG_SP);
  (SPARC64, UC_SPARC_REG_SP)
].

(** The registers that [process] seeds with the middle of the stack. *)
Definition seeded_registers (a : Arch) : list Reg :=
  (if bool_decide (a = X8632) then
     [UC_X86_REG_EAX; UC_X86_REG_EBX; UC_X86_REG_ECX; UC_X86_REG_EDX;
      UC_X86_REG_ESI; UC_X86_REG_EDI; UC_X86_REG_EBP]
   else []) ++
  (if bool_decide (a = X8664) then
     [UC_X86_REG_RAX; UC_X86_REG_RBX; UC_X86_REG_RCX; UC_X86_REG_RDX;
      UC_X86_REG_RSI; UC_X86_REG_RDI; UC_X86_REG_RBP;
      UC_X86_REG_R8; UC_X86_REG_R9; UC_X86_REG_R10; UC_X86_REG_R11;
      UC_X86_REG_R12; UC_X86_REG_R13; UC_X86_REG_R14; UC_X86_REG_R15]
   else []).

(** *** The stack-region placer *)

Definition _find_stack_location (args : Args) (exe : Executable) : res Z :=
  let stack_size := stack_size args in
  let memory_max := Z.shiftl 1 (pointer_size exe) in
  let space := image_defined_address_space exe in
  let aligned := align stack_size space.2 false in
  if bool_decide (aligned + stack_size < memory_max) then Ok aligned
  else
    let aligned := align stack_size (space.1 - stack_size) true in
    if bool_decide (0 < aligned) then Ok aligned
    else Raise RuntimeError.

(** *** Hook bodies

    A hook runs on the emulator's thread and shares the [EmuState] with
    the driver.  [Run] is what a hook can change: the state, and whether
    [emu.emu_stop()] was called.  [clock] is the host: with [Some n], the
    host delivers [KeyboardInterrupt] once, before the statement that
    follows the next [n] effectful statements of hook code. *)
Record Run : Type := {
  st : EmuState;
  stopped : bool;
  clock : option nat;
}.

Definition hook (A : Type) : Type := Run → res A * Run.

#[global] Instance hook_ret : MRet hook := fun A a r => (Ok a, r).
#[global] Instance hook_bind : MBind hook := fun A B k m r =>
  match m r with
  | (Ok a, r') => k a r'
  | (Raise e, r') => (Raise e, r')
  end.

Definition raise {A : Type} (e : exn) : hook A := fun r => (Raise e, r).

Definition tick : hook unit := fun r =>
  match clock r with
  | None => (Ok (), r)
  | Some (S n) =>
      (Ok (), {| st := st r; stopped := stopped r; clock := Some n |})
  | Some O =>
      (Raise KeyboardInterrupt,
       {| st := st r; stopped := stopped r; clock := None |})
  end.

Definition get : hook EmuState := fun r => (Ok (st r), r).

Definition update (g : Run → Run) : hook unit := fun r => (Ok (), g r).

(** One statement that assigns to the state. *)
Definition modify (f : EmuState → EmuState) : hook unit :=
  tick ;;
  update (fun r =>
    {| st := f (st r); stopped := stopped r; clock := clock r |}).

Definition emu_stop : hook unit :=
  tick ;;
  update (fun r =>
    {| st := st r; stopped := true; clock := clock r |}).

(** [state.callstack.pop()]: the last element goes; [IndexError] on an
    empty list. *)
Definition callstack_pop : hook unit :=
  s ← get;
  match callstack s with
  | [] => raise IndexError
  | _ => modify (fun s => set_callstack (removelast (callstack s)) s)
  end.

(** [try: body except KeyboardInterrupt: handler]. *)
Definition try_except_KeyboardInterrupt {A : Type}
    (body handler : hook A) : hook A := fun r =>
  match body r with
  | (Raise KeyboardInterrupt, r') => handler r'
  | other => other
  end.

(** A hook's return value: [None] when the body falls off its end. *)
Definition _hook_code (args : Args) (addr size : Z) : hook (option bool) :=
  s ← get;
  if bool_decide (Some addr = stop s) then
    emu_stop ;; mret (Some false)
  else
    try_except_KeyboardInterrupt
      (let waiting0 := waiting s in
       let depth := Z.of_nat (length (callstack s)) in
       modify (set_previous_address (address s)) ;;
       depth ←
         (if bool_decide (addr ≠ address s) then
            depth ←
              (if bool_decide (depth ≠ 0)
                  && bool_decide (last (callstack s) = Some addr)
               then
                 callstack_pop ;;
                 (if bool_decide (depth - 1 = 0)
                  then modify (set_stack_ceiling 0) else mret ()) ;;
                 mret (depth - 1)
               else mret depth);
            modify (set_address addr) ;;
            mret depth
          else if bool_decide (retaddr s ≠ None) then
            callstack_pop ;;
            modify (set_retaddr None) ;;
            mret depth
          else mret depth);
       if bool_decide (wait args < waiting0) then
         emu_stop ;; mret (Some false)
       else
         (if bool_decide (depth = 0) || negb (calls_wait args)
          then modify (fun s => set_waiting (waiting s + 1) s)
          else mret ()) ;;
         modify (fun s => set_address (address s + size) s) ;;
         if disassembles s addr size then mret None
         else emu_stop ;; mret None)
      (emu_stop ;; mret (Some false)).

(** What the ceiling test of [_hook_mem_write] decides:
    [state.stack_ceiling > 0 and
     address in range(state.stack_ceiling - 0x200, state.stack_ceiling)]. *)
Definition ceiling_suppressed (s : EmuState) (addr : Z) : bool :=
  bool_decide (0 < stack_ceiling s)
  && in_range addr (stack_ceiling s - 0x200) (stack_ceiling s).

(** [sp] is what [emu.reg_read(state.sp_register)] returns when the hook
    asks.  A negative [size] would make [1 << (size * 8)] raise. *)
Definition _hook_mem_write (args : Args) (sp : Z) (addr size value : Z)
  : hook unit :=
  if bool_decide (size * 8 < 0) then raise ValueError
  else
    let mask := Z.shiftl 1 (size * 8) - 1 in
    let unsigned_value := Z.land value mask in
    s ← get;
    (if bool_decide (unsigned_value = address s) then
       (if bool_decide (callstack s = [])
        then modify (set_stack_ceiling sp) else mret ()) ;;
       modify (set_retaddr (Some unsigned_value)) ;;
       modify (fun s => set_callstack (callstack s ++ [unsigned_value]) s)
     else modify (set_retaddr None)) ;;
    s ← get;
    if ceiling_suppressed s addr then mret ()
    else
      modify (set_waiting 0) ;;
      if negb (write_range args size) then mret ()
      else
        s ← get;
        match addi addr (addr + size + 1) (writes s) with
        | Raise e => raise e
        | Ok t =>
            modify (set_writes t) ;;
            modify (fun s => set_writes (merge_overlaps true (writes s)) s)
        end.

Definition _hook_insn_error : hook bool :=
  emu_stop ;; mret false.

(** [map_ok] is whether the emulator accepts
    [emu.mem_map(align(bs, address, down=True), 2 * bs)]; it raises
    [UcError] otherwise. *)
Definition _hook_mem_error (map_ok : bool) : hook bool :=
  tick ;;
  if map_ok then mret true else raise UcError.

(** *** The emulator run

    Modelled from the spec: the emulator is an external collaborator.
    [start(begin, end)] executes and dispatches the installed hooks,
    which mutate the state synchronously; what it meets on the way is the
    list of [event]s.  The run is over when a hook has told the emulator
    to stop, when a hook raises (the exception leaves [emu_start]), when
    the emulator fails by itself ([UcError]) or when the code is through. *)
Inductive event : Type :=
| EvCode (addr size : Z)
| EvMemWrite (sp addr size value : Z)
| EvInsnInvalid
| EvMemInvalid (map_ok : bool)
| EvError.

Definition dispatch (args : Args) (ev : event) : hook unit :=
  match ev with
  | EvCode addr size => _hook_code args addr size ;; mret ()
  | EvMemWrite sp addr size value => _hook_mem_write args sp addr size value
  | EvInsnInvalid => _hook_insn_error ;; mret ()
  | EvMemInvalid map_ok => _hook_mem_error map_ok ;; mret ()
  | EvError => raise UcError
  end.

Definition is_code (ev : event) : bool :=
  match ev with EvCode _ _ => true | _ => false end.

(** [executed] counts the instructions that the code hook let through. *)
Fixpoint emu_start (args : Args) (trace : list event) (executed : nat)
    (r : Run) : res unit * nat * Run :=
  match trace with
  | [] => (Ok (), executed, r)
  | ev :: rest =>
      match dispatch args ev r with
      | (Raise e, r') => (Raise e, executed, r')
      | (Ok _, r') =>
          if stopped r' then (Ok (), executed, r')
          else emu_start args rest
                 (if is_code ev then S executed else executed) r'
      end
  end.

(** *** The driver *)

(** What the collaborators do for one entry point: the emulator and the
    disassembler, and the Python runtime.  [uc_new] is the constructor
    [uc.Uc(arch, mode)], which raises [UcError] for a pair that the
    emulator does not support.  [tree_iter] is [iter(tree)]: the tree
    keeps its intervals in a Python [set], whose iteration order the
    language leaves open; since [merge_overlaps] builds that set anew
    after every recorded write, the order at the harvest depends on the
    intervals only. *)
Record Emulation : Type := {
  uc_new : UcArch * UcMode → res unit;
  tree_iter : gset (Z * Z) → list (Z * Z);
  mem_map_stack : Z → Z → res unit;
  map_segment : Z * Z → res unit;
  disassemble : Z → Z → bool;
  trace : list event;
  interrupt : option nat;
  mem_read : Z → Z → list byte;
}.

(** The loop over [exe.segments()]: [KeyboardInterrupt] is raised again;
    any other failure is raised again only for the segment that holds the
    entry point. *)
Fixpoint map_segments (emu : Emulation) (addr : Z) (segs : list (Z * Z))
  : res unit :=
  match segs with
  | [] => Ok ()
  | vmem :: rest =>
      match map_segment emu vmem with
      | Ok _ => map_segments emu addr rest
      | Raise KeyboardInterrupt => Raise KeyboardInterrupt
      | Raise e =>
          if in_range addr vmem.1 vmem.2 then Raise e
          else map_segments emu addr rest
      end
  end.

(** The loop over [iter(tree)]. *)
Fixpoint harvest (args : Args) (emu : Emulation) (it : list (Z * Z))
  : list (list byte) :=
  match it with
  | [] => []
  | interval :: it' =>
      let size := iend interval - ibegin interval - 1 in
      if negb (patch_range args size) then harvest args emu it'
      else mem_read emu (ibegin interval) size :: harvest args emu it'
  end.

(** [EmuState(exe, tree, address, disassembler, stop=self.args.stop,
    sp_register=sp)]. *)
Definition fresh_state (args : Args) (emu : Emulation) (addr : Z) (sp : Reg)
  : EmuState :=
  {| writes := ∅; address := addr; disassembles := disassemble emu;
     waiting := 0; callstack := []; retaddr := None;
     stop := args_stop args; previous_address := 0;
     sp_register := sp; stack_ceiling := 0 |}.

(** Everything up to [emu_start]: the emulator for the architecture, the
    stack-pointer register, the stack, the segments. *)
Definition setup (exe : Executable) (stack_addr stack_size : Z)
    (emu : Emulation) (addr : Z) : res Reg :=
  uc_arch ← _uc_arch (arch exe);
  _ ← uc_new emu uc_arch;
  sp ← getitem sp_table (arch exe);
  _ ← mem_map_stack emu stack_addr (stack_size * 3);
  _ ← map_segments emu addr (segments exe);
  Ok sp.

(** The body of the loop over [self.args.address]: what one entry point
    yields, or the exception that leaves [process]. *)
Definition process_entry (args : Args) (exe : Executable) (stack_addr : Z)
    (emu : Emulation) (addr : Z) : res (list (list byte)) :=
  sp ← setup exe stack_addr (stack_size args) emu addr;
  let state := fresh_state args emu addr sp in
  _ ← location_from_address exe addr;
  match emu_start args (trace emu) 0
          {| st := state; stopped := false; clock := interrupt emu |} with
  | (Ok _, _, r) | (Raise UcError, _, r) =>
      Ok (harvest args emu (tree_iter emu (writes (st r))))
  | (Raise e, _, _) => Raise e
  end.

(** [process] is a generator: what earlier entry points yielded is out
    before a later one raises. *)
Fixpoint process_loop (args : Args) (exe : Executable) (stack_addr : Z)
    (emulate : Z → Emulation) (addrs : list Z)
  : list (list byte) * option exn :=
  match addrs with
  | [] => ([], None)
  | addr :: rest =>
      match process_entry args exe stack_addr (emulate addr) addr with
      | Raise e => ([], Some e)
      | Ok out =>
          let (more, e) := process_loop args exe stack_addr emulate rest in
          (out ++ more, e)
      end
  end.

(** [cs_new] is the constructor [Cs(arch, mode)] of the disassembler,
    which raises [CsError] for a pair that it does not support. *)
Definition process (args : Args) (exe : Executable)
    (cs_new : CsArch * CsMode → res unit) (emulate : Z → Emulation)
  : list (list byte) * option exn :=
  match _find_stack_location args exe with
  | Raise e => ([], Some e)
  | Ok stack_addr =>
      match cs_arch ← _cs_arch (arch exe); cs_new cs_arch with
      | Raise e => ([], Some e)
      | Ok _ => process_loop args exe stack_addr emulate (args_address args)
      end
  end.

(** The register writes of [process] for one entry point, in order:
    [emulator.reg_write(sp, stack_addr + 2 * stack_size)], then
    [emulator.reg_write(reg, stack_addr + stack_size)] for the registers of
    the two x86 loops. *)
Definition initial_registers (a : Arch) (sp : Reg) (stack_addr stack_size : Z)
  : list (Reg * Z) :=
  (sp, stack_addr + 2 * stack_size)
  :: map (fun reg => (reg, stack_addr + stack_size)) (seeded_registers a).

(** The arguments of the [emu.mem_map] call of [_hook_mem_error]:
    [(align(bs, address, down=True), 2 * bs)]. *)
Definition fault_mapping (args : Args) (addr : Z) : Z * Z :=
  (align (block_size args) addr true, 2 * block_size args).

(** *** Notions of the specification *)

(** A run on which the host does not interrupt. *)
Definition run0 (s : EmuState) : Run :=
  {| st := s; stopped := false; clock := None |}.

(** The ceiling that the test of the memory-write hook meets: the hook
    first replaces it by the stack pointer when the write looks like the
    push of a return address on an empty shadow call stack. *)
Definition ceiling_in_force (sp size value : Z) (s : EmuState) : Z :=
  if bool_decide (Z.land value (Z.shiftl 1 (size * 8) - 1) = address s)
     && bool_decide (callstack s = [])
  then sp else stack_ceiling s.

(** The set of the tree iterates over the intervals of [t], each once. *)
Definition iterates (emu : Emulation) (t : gset (Z * Z)) : Prop :=
  tree_iter emu t ≡ₚ elements t.



End Vstack.

Import Vstack.

(** ** The [recode] unit *)

Module Recode.

Record Args : Type := {
  decode : option string;
  encode : string;
  decerr : string;
  encerr : string;
}.

(** [mv[0::2]]; [mv[1::2]] is [every_other (tail mv)]. *)
Fixpoint every_other (mv : list byte) : list byte :=
  match mv with
  | [] => []
  | [b] => [b]
  | b :: _ :: rest => b :: every_other rest
  end.

(** [any] over a view of bytes: some item is not zero. *)
Definition any (mv : list byte) : bool :=
  existsb (fun b => negb (Byte.eqb b x00)) mv.

Section Codecs.

(** [chardet.detect(data)['encoding']] and the two functions of
    [codecs] are external; [Text] is what [codecs.decode] returns. *)
Variable chardet_detect : list byte → option string.
Variable Text : Type.
Variable codecs_decode : list byte → option string → string → res Text.
Variable codecs_encode : Text → string → string → res (list byte).

Definition detect (data : list byte) : option string :=
  if negb (any (every_other (tail data))) then Some "utf-16le"%string
  else if negb (any (every_other data)) then Some "utf-16be"%string
  else chardet_detect data.

Definition process (args : Args) (data : list byte) : res (list byte) :=
  let codec :=
    match decode args with
    | None => detect data
    | Some codec => Some codec
    end in
  text ← codecs_decode data codec (decerr args);
  codecs_encode text (encode args) (encerr args).

(** What [process] returns when the input is decoded as [codec]. *)
Definition recoded_as (codec : option string) (args : Args)
    (data : list byte) : res (list byte) :=
  text ← codecs_decode data codec (decerr args);
  codecs_encode text (encode args) (encerr args).

End Codecs.

(** Every byte of [data] at an offset that satisfies [p] is zero. *)
Definition zero_at (p : nat → bool) (data : list byte) : Prop :=
  ∀ (i : nat) b, data !! i = Some b → p i = true → b = x00.

End Recode.

(** ** Concrete inputs *)

Module Scenario.

(** The defaults of the unit's arguments, for given entry points, wait
    threshold and smallest logged write. *)
Definition arguments (addrs : list Z) (w min_write : Z) : Vstack.Args :=
  {| args_address := addrs; args_stop := None;
     patch_range := fun size => bool_decide (5 ≤ size);
     write_range := fun size => bool_decide (min_write ≤ size);
     wait := w; calls_wait := false;
     stack_size := 0x10000; block_size := 0x1000 |}.

Definition defaults (addrs : list Z) : Vstack.Args := arguments addrs 10 1.

(** An image of the given segments. *)
Definition image (bits : Z) (a : Arch) (segs : list (Z * Z)) (space : Z * Z)
  : Executable :=
  {| pointer_size := bits; arch := a; segments := segs;
     image_defined_address_space := space;
     location_from_address := fun va =>
       match List.find (fun seg => in_range va seg.1 seg.2) segs with
       | Some seg => Ok seg
       | None => Raise LookupError
       end |}.

(** A 32-bit x86 image of one segment at [0x400000]. *)
Definition image_x86 : Executable :=
  image 32 X8632 [(0x400000, 0x410000)] (0x400000, 0x410000).

(** A 32-bit image loaded at [0xFFFD0000], below the top of memory. *)
Definition image_high : Executable :=
  image 32 X8632 [(0xFFFD0000, 0xFFFE0000)] (0xFFFD0000, 0xFFFE0000).

(** A 32-bit image with a segment low and a segment at the top. *)
Definition image_wide : Executable :=
  image 32 X8632 [(0x400000, 0x500000); (0xFFFE0000, 0xFFFF0000)]
    (0x400000, 0xFFFF0000).

(** An emulator that supports every architecture, maps everything,
    decodes everything, meets the events [t], and reads ['A'] bytes back;
    the set of the tree iterates as CPython has it. *)
Definition emulator (t : list event) (host : option nat) : Emulation :=
  {| uc_new := fun _ => Ok (); tree_iter := CPython.iter_tree;
     mem_map_stack := fun _ _ => Ok (); map_segment := fun _ => Ok ();
     disassemble := fun _ _ => true; trace := t; interrupt := host;
     mem_read := fun _ size => replicate (Z.to_nat size) "A"%byte |}.

(** The same emulator over a memory of which each byte holds the second
    byte of its address. *)
Definition stripe (a : Z) : byte :=
  default x00 (Byte.of_N (Z.to_N ((a ≫ 8) `mod` 256))).

Definition striped (t : list event) (host : option nat) : Emulation :=
  {| uc_new := fun _ => Ok (); tree_iter := CPython.iter_tree;
     mem_map_stack := fun _ _ => Ok (); map_segment := fun _ => Ok ();
     disassemble := fun _ _ => true; trace := t; interrupt := host;
     mem_read := fun a size => replicate (Z.to_nat size) (stripe a) |}.

(** The stack pointer of these scenarios. *)
Definition sp0 : Z := 0x430000.

(** [call next; next: pop eax], then a store of four bytes just below the
    stack pointer. *)
Definition false_call : list event :=
  [ EvCode 0x401000 5;
    EvMemWrite sp0 (sp0 - 4) 4 0x401005;
    EvCode 0x401005 1;
    EvCode 0x401006 4;
    EvMemWrite sp0 (sp0 - 8) 4 0x6c6c6548 ].

(** Two stores that build eight bytes, then two more instructions. *)
Definition two_stores : list event :=
  [ EvCode 0x401000 7;
    EvMemWrite sp0 (sp0 - 16) 4 0x6c6c6548;
    EvCode 0x401007 7;
    EvMemWrite sp0 (sp0 - 12) 4 0x6f57206f;
    EvCode 0x40100E 1;
    EvCode 0x40100F 1 ].

(** The same, with the emulator failing at the end. *)
Definition two_stores_fault : list event := two_stores ++ [EvError].

(** A disassembler that is there for every architecture. *)
Definition capstone (_ : CsArch * CsMode) : res unit := Ok ().

(** Three stores of eight bytes, far from each other. *)
Definition three_stores : list event :=
  [ EvCode 0x401000 8;
    EvMemWrite sp0 0x42F700 8 0xF7F7F7F7F7F7F7F7;
    EvCode 0x401008 8;
    EvMemWrite sp0 0x42F900 8 0xF9F9F9F9F9F9F9F9;
    EvCode 0x401010 8;
    EvMemWrite sp0 0x42FD00 8 0xFDFDFDFDFDFDFDFD ].


(** Three instructions that store nothing. *)
Definition three_nops : list event :=
  [ EvCode 0x401000 1; EvCode 0x401001 1; EvCode 0x401002 1 ].


Definition entry_state (args : Vstack.Args) : EmuState :=
  fresh_state args (emulator [] None) 0x401000 UC_X86_REG_ESP.

End Scenario.

Import Recode.

(** * Properties *)

(** ** recode: the choice of the input codec *)

Section RecodeFacts.

Lemma every_other_ind (P : list byte → Prop) :
  P [] →
  (∀ b, P [b]) →
  (∀ b c l, P l → P (b :: c :: l)) →
  ∀ l, P l.
Proof.
  intros Hnil Hone Hstep.
  assert (H : ∀ l, P l ∧ ∀ b, P (b :: l)).
  { induction l as [|c l [IH1 IH2]]; split; auto. }
  intros l. apply H.
Qed.

(** No item of [mv[0::2]] is truthy exactly when every byte at an even
    offset is zero. *)
Lemma any_every_other_false (mv : list byte) :
  any (every_other mv) = false ↔
  ∀ (i : nat) b, mv !! i = Some b → Nat.even i = true → b = x00.
Proof.
  induction mv as [|b|b c l IH] using every_other_ind.
  - split; [intros _ i b Hi; by destruct i | done].
  - cbn. rewrite orb_false_r, negb_false_iff. split.
    + intros Hb [|i] b' Hi Hev; cbn in Hi.
      * inversion Hi; subst. by apply Byte.byte_dec_bl.
      * by destruct i.
    + intros H. apply Byte.byte_dec_lb. by apply (H 0%nat).
  - cbn [every_other any existsb]. fold (any (every_other l)).
    rewrite orb_false_iff, negb_false_iff, IH. split.
    + intros [Hb Hl] [|[|i]] b' Hi Hev; cbn in Hi.
      * inversion Hi; subst. by apply Byte.byte_dec_bl.
      * discriminate Hev.
      * apply (Hl i); [done | by rewrite Nat.even_succ_succ in Hev].
    + intros H. split.
      * apply Byte.byte_dec_lb. by apply (H 0%nat).
      * intros i b' Hi Hev. apply (H (S (S i))); [done|].
        by rewrite Nat.even_succ_succ.
Qed.

(** The same for [mv[1::2]] and the odd offsets. *)
Lemma any_every_other_tail_false (mv : list byte) :
  any (every_other (tail mv)) = false ↔
  ∀ (i : nat) b, mv !! i = Some b → Nat.odd i = true → b = x00.
Proof.
  rewrite any_every_other_false. split.
  - intros H [|i] b Hi Hodd; [discriminate Hodd|].
    apply (H i); [by rewrite lookup_tail | by rewrite Nat.odd_succ in Hodd].
  - intros H i b Hi Hev. apply (H (S i)).
    + by rewrite <- lookup_tail.
    + by rewrite Nat.odd_succ.
Qed.

End RecodeFacts.

(** C10.  With no [decode] argument, [recode] decodes the input as
    utf-16le when every byte at an odd offset is zero (the empty and the
    all-zero input included, this test coming first), else as utf-16be when
    every byte at an even offset is zero, and asks the chardet guesser only
    when both tests fail. *)
Theorem recode_detects_utf16_before_chardet
    (chardet_detect : list byte → option string) (Text : Type)
    (codecs_decode : list byte → option string → string → res Text)
    (codecs_encode : Text → string → string → res (list byte))
    (args : Recode.Args) (data : list byte) :
  decode args = None →
  let chosen codec :=
    detect chardet_detect data = codec ∧
    Recode.process chardet_detect Text codecs_decode codecs_encode args data
    = recoded_as Text codecs_decode codecs_encode codec args data in
  (zero_at Nat.odd data → chosen (Some "utf-16le"%string)) ∧
  (¬ zero_at Nat.odd data → zero_at Nat.even data →
     chosen (Some "utf-16be"%string)) ∧
  (¬ zero_at Nat.odd data → ¬ zero_at Nat.even data →
     chosen (chardet_detect data)).
Proof.
  intros Hdec chosen. subst chosen. cbv beta.
  unfold Recode.process, recoded_as, detect. rewrite Hdec.
  pose proof (any_every_other_tail_false data) as Hodd.
  pose proof (any_every_other_false data) as Heven.
  fold (zero_at Nat.odd data) in Hodd. fold (zero_at Nat.even data) in Heven.
  destruct (any (every_other (tail data))) eqn:Eo;
    destruct (any (every_other data)) eqn:Ee; cbn [negb];
    repeat split; intros; try done;
    try (exfalso; intuition congruence).
Qed.

Lemma recode_detects_utf16_before_chardet_witness :
  detect (fun _ => Some "ascii"%string) [] = Some "utf-16le"%string.
Proof.
  refine (proj1 (proj1
    (recode_detects_utf16_before_chardet
       (fun _ => Some "ascii"%string) (list byte)
       (fun data _ _ => Ok data) (fun text _ _ => Ok text)
       {| decode := None; encode := "utf8"; decerr := "strict";
          encerr := "strict" |}
       [] eq_refl) _)).
  intros i b Hi. by destruct i.
Defined.

(** ** The write tracker: merged intervals *)

Section IntervalFacts.

#[local] Instance interval_le_total : Total interval_le.
Proof. intros [a b] [c d]. unfold interval_le, ibegin, iend. cbn. lia. Qed.

#[local] Instance interval_le_trans : Transitive interval_le.
Proof.
  intros [a b] [c d] [e f]. unfold interval_le, ibegin, iend. cbn. lia.
Qed.

#[local] Instance before_trans (strict : bool) : Transitive (before strict).
Proof.
  intros [a b] [c d] [e f]. unfold before, proper, ibegin, iend. cbn.
  destruct strict; lia.
Qed.

Lemma before_not_overlaps (strict : bool) i j :
  before strict i j ∨ before strict j i → ¬ overlaps i j.
Proof.
  unfold before, overlaps, proper. destruct strict; lia.
Qed.

Lemma before_lax_not_touches i j :
  before false i j ∨ before false j i → ¬ touches i j.
Proof. unfold before, touches, proper. lia. Qed.

(** Any two members of a strongly sorted list are equal or related. *)
Lemma StronglySorted_related {A} (R : relation A) (l : list A) x y :
  StronglySorted R l → x ∈ l → y ∈ l → x = y ∨ R x y ∨ R y x.
Proof.
  induction 1 as [|a l Hl IH Ha]; intros Hx Hy.
  - by apply elem_of_nil in Hx.
  - rewrite Forall_forall in Ha.
    apply elem_of_cons in Hx as [->|Hx]; apply elem_of_cons in Hy as [->|Hy];
      auto.
Qed.

(** The merge loop, run over intervals sorted by where they begin, ends
    with series that lie one before the other; the first series begins
    where the first interval does. *)
Lemma merge_series_sorted (strict : bool) rest : ∀ lower,
  proper lower →
  Forall proper rest →
  StronglySorted (fun i j => ibegin i ≤ ibegin j) (lower :: rest) →
  Sorted (before strict) (merge_series strict lower rest) ∧
  Forall proper (merge_series strict lower rest) ∧
  ∃ e tl, merge_series strict lower rest = (ibegin lower, e) :: tl.
Proof.
  induction rest as [|higher rest IH]; intros lower Hp Hrest Hsorted.
  - cbn. repeat split; [repeat constructor | by constructor |].
    destruct lower as [b e]. by exists e, [].
  - apply Forall_cons in Hrest as [Hph Hrest].
    apply StronglySorted_inv in Hsorted as [Hsorted Hlow].
    apply Forall_cons in Hlow as [Hlh Hlow].
    cbn [merge_series].
    destruct (bool_decide (ibegin higher < iend lower)
              || negb strict && bool_decide (ibegin higher = iend lower))
      eqn:Hmerge.
    + assert (Hp' : proper (ibegin lower, Z.max (iend lower) (iend higher))).
      { unfold proper, ibegin, iend in *. cbn. lia. }
      assert (Hs' : StronglySorted (fun i j => ibegin i ≤ ibegin j)
                      ((ibegin lower, Z.max (iend lower) (iend higher)) :: rest)).
      { apply StronglySorted_inv in Hsorted as [Hsorted _].
        constructor; [done|]. eapply Forall_impl; [exact Hlow|].
        intros x. unfold ibegin. by cbn. }
      destruct (IH _ Hp' Hrest Hs') as (Hs & Hf & e & tl & Heq).
      repeat split; [done..|]. by exists e, tl.
    + destruct (IH higher Hph Hrest Hsorted) as (Hs & Hf & e & tl & Heq).
      repeat split.
      * constructor; [done|]. rewrite Heq. constructor.
        rewrite Heq in Hf. apply Forall_cons in Hf as [Hpe _].
        apply orb_false_iff in Hmerge as [H1 H2].
        apply bool_decide_eq_false in H1.
        unfold before. repeat split; [done..|].
        unfold iend, ibegin in *. cbn in *.
        destruct strict; [lia|]. cbn in H2.
        apply bool_decide_eq_false in H2. lia.
      * by constructor.
      * destruct lower as [b e']. by exists e', (merge_series strict higher rest).
Qed.

(** [merge_overlaps] keeps proper intervals proper and leaves any two of
    them apart. *)
Lemma merge_overlaps_apart (strict : bool) (t : gset (Z * Z)) :
  (∀ i, i ∈ t → proper i) →
  (∀ i, i ∈ merge_overlaps strict t → proper i) ∧
  (∀ i j, i ∈ merge_overlaps strict t → j ∈ merge_overlaps strict t →
      i ≠ j → before strict i j ∨ before strict j i).
Proof.
  intros Hproper. unfold merge_overlaps.
  pose proof (merge_sort_Permutation interval_le (elements t)) as Hperm.
  pose proof (StronglySorted_merge_sort interval_le (elements t)) as Hsorted.
  destruct (merge_sort interval_le (elements t)) as [|first rest] eqn:Hms.
  - symmetry in Hperm. apply Permutation_nil_r in Hperm.
    apply elements_empty_inv in Hperm. apply leibniz_equiv in Hperm.
    subst t. split; [done|]. intros i j Hi. set_solver.
  - assert (Hall : Forall proper (first :: rest)).
    { apply Forall_forall. intros x Hx. apply Hproper.
      rewrite Hperm in Hx. by apply elem_of_elements in Hx. }
    apply Forall_cons in Hall as [Hpf Hpr].
    destruct (merge_series_sorted strict rest first) as (Hs & Hf & _); auto.
    { clear -Hsorted. induction Hsorted as [|a l Hl IH Ha]; constructor; auto.
      eapply Forall_impl; [exact Ha|]. intros x. unfold interval_le. lia. }
    split.
    + intros i Hi. apply elem_of_list_to_set in Hi.
      rewrite Forall_forall in Hf. by apply Hf.
    + intros i j Hi Hj Hne.
      apply elem_of_list_to_set in Hi. apply elem_of_list_to_set in Hj.
      apply Sorted_StronglySorted in Hs; [|apply _].
      destruct (StronglySorted_related _ _ i j Hs Hi Hj) as [?|?]; done.
Qed.

Lemma addi_proper (b e : Z) (t t' : gset (Z * Z)) :
  (∀ i, i ∈ t → proper i) → addi b e t = Ok t' → ∀ i, i ∈ t' → proper i.
Proof.
  unfold addi, is_null. intros Hp Hadd i Hi.
  repeat case_bool_decide; simplify_eq; auto.
  apply elem_of_union in Hi as [Hi|Hi]; auto.
  apply elem_of_singleton in Hi. subst i. unfold proper, ibegin, iend in *.
  cbn in *. lia.
Qed.

Lemma addi_succeeds (b e : Z) (t : gset (Z * Z)) :
  b < e → ∃ t', addi b e t = Ok t'.
Proof.
  intros Hbe. unfold addi, is_null, ibegin, iend. cbn.
  repeat case_bool_decide; eauto. lia.
Qed.

(** Recording writes of non-negative size succeeds and leaves a tree of
    proper intervals that do not overlap. *)
Lemma record_all_apart (ws : list (Z * Z)) : ∀ (t : gset (Z * Z)),
  Forall (fun w => 0 ≤ w.2) ws →
  (∀ i, i ∈ t → proper i) →
  (∀ i j, i ∈ t → j ∈ t → i ≠ j → before true i j ∨ before true j i) →
  ∃ t', record_all ws t = Ok t' ∧
    (∀ i, i ∈ t' → proper i) ∧
    (∀ i j, i ∈ t' → j ∈ t' → i ≠ j → before true i j ∨ before true j i).
Proof.
  induction ws as [|[a sz] ws IH]; intros t Hsz Hp Hap.
  - exists t. by cbn.
  - apply Forall_cons in Hsz as [Hsz Hws]. cbn in Hsz. cbn [record_all].
    destruct (addi_succeeds a (a + sz + 1) t) as [t1 Ht1]; [lia|].
    unfold record. cbn [fst snd]. rewrite Ht1. cbn.
    pose proof (addi_proper _ _ _ _ Hp Ht1) as Hp1.
    destruct (merge_overlaps_apart true t1 Hp1) as [Hp2 Hap2].
    by apply IH.
Qed.

End IntervalFacts.

(** C4, as amended.  After any sequence of recorded writes, each stored as
    [[addr, addr + size + 1)] and followed by a merge of the overlapping
    entries, no two stored intervals overlap.  (Two of them may still share
    an endpoint: that is the case of two writes one byte apart.) *)
Theorem recorded_writes_never_overlap (ws : list (Z * Z)) :
  Forall (fun w => 0 ≤ w.2) ws →
  ∃ t : gset (Z * Z),
    record_all ws ∅ = Ok t ∧
    ∀ i j, i ∈ t → j ∈ t → i ≠ j → ¬ overlaps i j.
Proof.
  intros Hsz.
  destruct (record_all_apart ws ∅ Hsz) as (t & Ht & _ & Hap).
  - intros i Hi. set_solver.
  - intros i j Hi. set_solver.
  - exists t. split; [done|]. intros i j Hi Hj Hne.
    apply (before_not_overlaps true). by apply Hap.
Qed.

Lemma recorded_writes_never_overlap_witness :
  ∃ t : gset (Z * Z),
    record_all [(0x1000, 4); (0x1004, 4); (0x2000, 2)] ∅ = Ok t ∧
    ∀ i j, i ∈ t → j ∈ t → i ≠ j → ¬ overlaps i j.
Proof.
  apply (recorded_writes_never_overlap [(0x1000, 4); (0x1004, 4); (0x2000, 2)]).
  repeat constructor; cbn; lia.
Defined.

(** C4, as stated, fails: a write of four bytes at 0 and one at 5 are
    stored as [[0, 5)] and [[5, 10)], which share the endpoint 5 and stay
    two intervals. *)
Lemma recorded_writes_may_touch :
  ∃ t : gset (Z * Z),
    record_all [(0, 4); (5, 4)] ∅ = Ok t ∧
    (0, 5) ∈ t ∧ (5, 10) ∈ t ∧ (0, 5) ≠ (5, 10) ∧ touches (0, 5) (5, 10).
Proof.
  exists {[ (0, 5); (5, 10) ]}. split; [by vm_compute|].
  split; [set_solver|]. split; [set_solver|]. split; [done|].
  by left.
Qed.

(** ** vstack: architecture tables *)

(** C1.  The claim holds of [_uc_arch], which knows every listed
    architecture, and fails of the stack-pointer table of [process]: ARM-64
    and both PowerPC tags are not bound there.  For ARM-64, once the
    constructor has built the emulator for the pair that [_uc_arch] gives,
    the set-up of an entry point raises [KeyError]; and for each of the
    three tags the set-up ends in an exception, the [KeyError] of the table
    or what the constructor raised before, instead of going on (for
    PowerPC, without a stack pointer). *)
Theorem setup_raises_for_listed_architectures
    (bits : Z) (segs : list (Z * Z)) (space : Z * Z)
    (stack_addr stack_size : Z) (emu : Emulation) (addr : Z) :
  uc_new emu (UC_ARCH_ARM, UC_MODE_THUMB) = Ok () →
  (∀ a, ∃ m, _uc_arch a = Ok m) ∧
  setup (Scenario.image bits ARM64 segs space) stack_addr stack_size emu addr
    = Raise KeyError ∧
  (∀ a, a ∈ [ARM64; PPC32; PPC64] →
     ∃ e, setup (Scenario.image bits a segs space) stack_addr stack_size
            emu addr = Raise e ∧
          (e = KeyError ∨
           ∃ m, _uc_arch a = Ok m ∧ uc_new emu m = Raise e)).
Proof.
  intros Hnew.
  split; [intros []; eexists; reflexivity|].
  assert (∀ a, getitem sp_table a = Raise KeyError →
            ∃ e, setup (Scenario.image bits a segs space) stack_addr
                   stack_size emu addr = Raise e ∧
                 (e = KeyError ∨
                  ∃ m, _uc_arch a = Ok m ∧ uc_new emu m = Raise e)) as Hsp.
  { intros a Ha. unfold setup. cbn [arch Scenario.image].
    destruct (_uc_arch a) as [m|e] eqn:Hm; cbn [mbind res_bind].
    - destruct (uc_new emu m) as [[]|e] eqn:He; cbn [mbind res_bind].
      + rewrite Ha. exists KeyError. split; [done|by left].
      + exists e. split; [done|]. right. by exists m.
    - by destruct a. }
  split.
  - unfold setup. cbn [arch Scenario.image].
    change (_uc_arch ARM64) with (Ok (UC_ARCH_ARM, UC_MODE_THUMB) : res _).
    cbn [mbind res_bind]. by rewrite Hnew.
  - intros a Ha. apply Hsp.
    rewrite !elem_of_cons, elem_of_nil in Ha.
    destruct Ha as [-> | [-> | [-> | []]]]; reflexivity.
Qed.

Lemma setup_raises_for_listed_architectures_witness :
  let emu := Scenario.emulator [] None in
  (∀ a, ∃ m, _uc_arch a = Ok m) ∧
  setup (Scenario.image 64 ARM64 [(0x400000, 0x410000)] (0x400000, 0x410000))
    0x410000 0x10000 emu 0x401000
    = Raise KeyError ∧
  (∀ a, a ∈ [ARM64; PPC32; PPC64] →
     ∃ e, setup (Scenario.image 64 a [(0x400000, 0x410000)]
                   (0x400000, 0x410000)) 0x410000 0x10000 emu 0x401000
          = Raise e ∧
          (e = KeyError ∨
           ∃ m, _uc_arch a = Ok m ∧ uc_new emu m = Raise e)).
Proof.
  cbv zeta.
  apply (setup_raises_for_listed_architectures 64 [(0x400000, 0x410000)]
           (0x400000, 0x410000) 0x410000 0x10000
           (Scenario.emulator [] None) 0x401000).
  reflexivity.
Defined.

(** The stack-pointer table binds a register for every other tag; whether
    the set-up comes as far as the table is for the constructor of the
    emulator to say. *)
Lemma sp_table_resolves (a : Arch) :
  a ∉ [ARM64; PPC32; PPC64] → ∃ sp, getitem sp_table a = Ok sp.
Proof.
  destruct a; intros Hin; try (eexists; reflexivity);
    exfalso; apply Hin; set_solver.
Qed.

(** ** vstack: the stack-region placer *)

(** What the placer does ensure: one block of [stack_size] bytes at the
    returned address is above the image and below the top of memory, or
    above zero and below the image. *)
Lemma _find_stack_location_one_block (args : Vstack.Args) (exe : Executable) (A : Z) :
  0 ≤ pointer_size exe →
  _find_stack_location args exe = Ok A →
  ((image_defined_address_space exe).2 ≤ A ∧
   A + stack_size args < 2 ^ pointer_size exe) ∨
  (0 < A ∧ A ≤ (image_defined_address_space exe).1 - stack_size args).
Proof.
  intros Hbits. unfold _find_stack_location, align.
  rewrite Z.shiftl_1_l.
  destruct (image_defined_address_space exe) as [lower upper]. cbn [fst snd].
  repeat case_bool_decide; intros [= <-]; try (left; lia); try (right; lia).
  pose proof (Z.mod_pos_bound upper (stack_size args)). left. lia.
Qed.

(** C3.  The placer tests room for one [stack_size] above the image and
    asks nothing of the two further blocks that [process] maps.  With the
    default [stack_size] an image that ends at [0xFFFE0000] gets a stack
    that runs past [2^32], and an image that reaches up to [0xFFFF0000]
    gets a stack below its first segment that runs into it. *)
Theorem stack_location_outside_contract :
  let args := Scenario.defaults [0x401000] in
  (spans_segments Scenario.image_high ∧
   _find_stack_location args Scenario.image_high = Ok 0xFFFE0000 ∧
   2 ^ pointer_size Scenario.image_high < 0xFFFE0000 + 3 * stack_size args) ∧
  (spans_segments Scenario.image_wide ∧
   _find_stack_location args Scenario.image_wide = Ok 0x3F0000 ∧
   (0x400000, 0x500000) ∈ segments Scenario.image_wide ∧
   overlaps (0x3F0000, 0x3F0000 + 3 * stack_size args) (0x400000, 0x500000)).
Proof.
  assert (Hspan : ∀ exe, Forall (fun seg =>
            (image_defined_address_space exe).1 ≤ seg.1 ∧
            seg.2 ≤ (image_defined_address_space exe).2) (segments exe) →
          spans_segments exe).
  { intros exe H seg Hseg. rewrite Forall_forall in H. by apply H. }
  cbv zeta. split; (split; [apply Hspan; repeat constructor; by vm_compute|]);
    clear Hspan.
  - split; reflexivity.
  - split; [reflexivity|]. split; [apply list_elem_of_here|]. by vm_compute.
Qed.

(** ** vstack: the memory-write hook *)

Ltac hook_unfold :=
  unfold _hook_mem_write, _hook_code, _hook_insn_error, _hook_mem_error,
    callstack_pop, try_except_KeyboardInterrupt, modify, emu_stop, tick,
    update, get, raise, mbind, hook_bind, mret, hook_ret, run0.

(** The ceiling test reads the ceiling that call detection left. *)
Lemma ceiling_in_force_inside_call (sp size value : Z) (s : EmuState) :
  callstack s ≠ [] → ceiling_in_force sp size value s = stack_ceiling s.
Proof.
  intros Hne. unfold ceiling_in_force.
  rewrite (bool_decide_eq_false_2 (callstack s = [])) by done.
  by rewrite andb_false_r.
Qed.

(** C8.  A write whose address lies in the [0x200] bytes below a positive
    stack ceiling is left out: the hook returns with the interval set and
    the wait counter as they were. *)
Theorem ceiling_suppresses_write
    (args : Vstack.Args) (sp addr size value : Z) (s : EmuState) :
  0 ≤ size →
  0 < ceiling_in_force sp size value s →
  ceiling_in_force sp size value s - 0x200 ≤ addr
    < ceiling_in_force sp size value s →
  ∃ s', _hook_mem_write args sp addr size value (run0 s) = (Ok (), run0 s') ∧
        writes s' = writes s ∧ waiting s' = waiting s.
Proof.
  intros Hsz Hc Hin. unfold ceiling_in_force in *. hook_unfold.
  rewrite bool_decide_eq_false_2 by lia. cbn.
  unfold ceiling_suppressed, in_range.
  destruct (bool_decide (Z.land value (1 ≪ (size * 8) - 1) = address s));
    [destruct (bool_decide (callstack s = []))|]; cbn in *.
  all: rewrite !bool_decide_eq_true_2 by lia; cbn.
  all: eexists; split; [reflexivity|]; done.
Qed.

Lemma ceiling_suppresses_write_witness :
  let s := set_stack_ceiling Scenario.sp0
             (set_callstack [0x401005]
                (Scenario.entry_state (Scenario.defaults [0x401000]))) in
  ∃ s', _hook_mem_write (Scenario.defaults [0x401000]) Scenario.sp0
          (Scenario.sp0 - 8) 4 0x6c6c6548 (run0 s) = (Ok (), run0 s') ∧
        writes s' = writes s ∧ waiting s' = waiting s.
Proof.
  cbv zeta. apply ceiling_suppresses_write; vm_compute; done.
Defined.

(** C2, as amended.  A write whose size is outside [write_range], at an
    address that the ceiling test does not leave out, adds nothing to the
    interval set; the wait counter is reset to zero all the same. *)
Theorem unlogged_write_still_resets_waiting
    (args : Vstack.Args) (sp addr size value : Z) (s : EmuState) :
  0 ≤ size →
  write_range args size = false →
  ¬ (0 < ceiling_in_force sp size value s ∧
     ceiling_in_force sp size value s - 0x200 ≤ addr
       < ceiling_in_force sp size value s) →
  ∃ s', _hook_mem_write args sp addr size value (run0 s) = (Ok (), run0 s') ∧
        writes s' = writes s ∧ waiting s' = 0.
Proof.
  intros Hsz Hwr Hout. unfold ceiling_in_force in *. hook_unfold.
  rewrite bool_decide_eq_false_2 by lia. cbn.
  unfold ceiling_suppressed, in_range.
  destruct (bool_decide (Z.land value (1 ≪ (size * 8) - 1) = address s));
    [destruct (bool_decide (callstack s = []))|]; cbn in *.
  all: match goal with
       | |- context [bool_decide (0 < ?c) && _] =>
           destruct (bool_decide (0 < c) &&
                     (bool_decide (c - 512 ≤ addr) && bool_decide (addr < c)))
             eqn:Hsup
       end.
  all: try (exfalso; apply Hout;
            apply andb_true_iff in Hsup as [H1 H2];
            apply andb_true_iff in H2 as [H2 H3];
            apply bool_decide_eq_true in H1, H2, H3; lia).
  all: cbn; rewrite Hwr; cbn; eexists; split; [reflexivity|]; done.
Qed.

Lemma unlogged_write_still_resets_waiting_witness :
  let args := Scenario.arguments [0x401000] 10 2 in
  let s := set_waiting 3 (Scenario.entry_state args) in
  ∃ s', _hook_mem_write args Scenario.sp0 (Scenario.sp0 - 0x300) 1 0x41 (run0 s)
          = (Ok (), run0 s') ∧
        writes s' = writes s ∧ waiting s' = 0.
Proof.
  cbv zeta. apply unlogged_write_still_resets_waiting; vm_compute; try done.
  intros [H _]. discriminate H.
Defined.

(** C2, as stated, fails: with [write_range] from two bytes on, a store of
    one byte, far from any ceiling, takes the wait counter from 3 to 0. *)
Lemma unlogged_write_changes_waiting :
  let args := Scenario.arguments [0x401000] 10 2 in
  let s := set_waiting 3 (Scenario.entry_state args) in
  ∃ s', _hook_mem_write args Scenario.sp0 (Scenario.sp0 - 0x300) 1 0x41 (run0 s)
          = (Ok (), run0 s') ∧
        write_range args 1 = false ∧
        ceiling_suppressed s' (Scenario.sp0 - 0x300) = false ∧
        writes s' = writes s ∧
        waiting s = 3 ∧ waiting s' = 0.
Proof.
  cbv zeta. eexists. split; [vm_compute; reflexivity|]. by vm_compute.
Qed.

(** ** vstack: the shadow call stack and the ceiling *)


Ltac hook_cases :=
  repeat (cbn in *;
    match goal with
    | H : context [if ?b then _ else _] |- _ => destruct b eqn:?
    | H : context [match callstack ?s with _ => _ end] |- _ =>
        destruct (callstack s) eqn:?
    | |- context [if ?b then _ else _] => destruct b eqn:?
    | |- context [match callstack ?s with _ => _ end] =>
        destruct (callstack s) eqn:?
    end).

(** A return to the only address on the shadow call stack empties it and
    clears the ceiling. *)
Lemma return_pop_clears_ceiling
    (args : Vstack.Args) (addr size : Z) (s : EmuState) :
  addr ≠ address s →
  callstack s = [addr] →
  stop s ≠ Some addr →
  waiting s ≤ wait args →
  disassembles s addr size = true →
  ∃ s', _hook_code args addr size (run0 s) = (Ok None, run0 s') ∧
        callstack s' = [] ∧ stack_ceiling s' = 0.
Proof.
  intros Hbranch Hcs Hstop Hwait Hdis.
  destruct s; cbn in *; subst. hook_unfold. cbn.
  rewrite (bool_decide_eq_false_2 (Some addr = _)) by congruence.
  rewrite (bool_decide_eq_true_2 (addr ≠ _)) by done.
  rewrite (bool_decide_eq_false_2 (wait args < _)) by lia.
  rewrite (bool_decide_eq_true_2 (Some addr = Some addr)) by done.
  rewrite Hdis. cbn. eexists. split; [reflexivity|]. done.
Qed.

(** A push that was followed by no branch is popped as well, but the
    ceiling that the push had set stays. *)
Lemma false_call_pop_keeps_ceiling
    (args : Vstack.Args) (size v : Z) (s : EmuState) :
  retaddr s ≠ None →
  callstack s = [v] →
  stop s ≠ Some (address s) →
  waiting s ≤ wait args →
  disassembles s (address s) size = true →
  ∃ s', _hook_code args (address s) size (run0 s) = (Ok None, run0 s') ∧
        callstack s' = [] ∧ stack_ceiling s' = stack_ceiling s.
Proof.
  intros Hret Hcs Hstop Hwait Hdis.
  destruct s; cbn in *; subst. hook_unfold. cbn.
  rewrite (bool_decide_eq_false_2 (Some _ = _)) by congruence.
  rewrite (bool_decide_eq_false_2 (_ ≠ _)) by tauto.
  rewrite (bool_decide_eq_true_2 (_ ≠ None)) by done.
  rewrite (bool_decide_eq_false_2 (wait args < _)) by lia.
  rewrite Hdis. destruct (calls_wait args); cbn.
  all: eexists; split; [reflexivity|]; done.
Qed.

(** C5.  After [call next; next: pop eax] the shadow call stack is empty
    again, but the ceiling is still the stack pointer that the push had
    captured, not 0; the store of four bytes that follows, just below that
    stack pointer, is left out of the interval set. *)
Theorem false_call_leaves_ceiling_set :
  ∃ s', emu_start (Scenario.defaults [0x401000]) Scenario.false_call 0
          (run0 (Scenario.entry_state (Scenario.defaults [0x401000])))
        = (Ok (), 3%nat, run0 s') ∧
        callstack s' = [] ∧
        stack_ceiling s' = Scenario.sp0 ∧ stack_ceiling s' ≠ 0 ∧
        writes s' = ∅.
Proof.
  eexists. split; [vm_compute; reflexivity|]. by vm_compute.
Qed.

(** ** vstack: the wait counter *)







(** ** vstack: cancellation by the host *)

(** Inside its [try], the code hook turns the interrupt into a stop: it
    never lets [KeyboardInterrupt] out, never touches the interval set,
    and when the interrupt arrived it has stopped the emulator and
    returns [False]. *)
Lemma code_hook_interrupted (args : Vstack.Args) (addr size : Z) (r : Run) :
  Some addr ≠ stop (st r) →
  ∀ res r', _hook_code args addr size r = (res, r') →
    res ≠ Raise KeyboardInterrupt ∧
    writes (st r') = writes (st r) ∧
    (clock r ≠ None → clock r' = None →
       res = Ok (Some false) ∧ stopped r' = true).
Proof.
  intros Hstop res r'. hook_unfold. cbn.
  rewrite bool_decide_eq_false_2 by done.
  destruct r as [s b k]. cbn in *.
  destruct k as [[|[|[|[|[|[|[|[|k]]]]]]]]|]; cbn.
  all: intros H; hook_cases; inversion H; subst; cbn; repeat split; try done.
Qed.

(** A run that went through [t] without being stopped goes on with what
    follows [t]. *)
Lemma emu_start_prefix (args : Vstack.Args) (t : list event) :
  ∀ (n : nat) (r : Run) (n1 : nat) (r1 : Run) rest,
    emu_start args t n r = (Ok (), n1, r1) →
    stopped r1 = false →
    emu_start args (t ++ rest) n r = emu_start args rest n1 r1.
Proof.
  induction t as [|ev t IH]; intros n r n1 r1 rest Hrun Hgo.
  - cbn in Hrun. by simplify_eq.
  - cbn [app emu_start] in *.
    destruct (dispatch args ev r) as [[[]|e] r']; [|done].
    destruct (stopped r') eqn:Hr'.
    + simplify_eq. congruence.
    + by apply IH.
Qed.

(** C6, as amended.  When the host's interrupt arrives while the code hook
    runs its [try] block, the hook tells the emulator to stop and returns
    [False]: the interrupt ends there, and [process] goes on to harvest and
    emit what the entry point had recorded so far. *)
Theorem cancellation_in_code_hook_is_swallowed
    (args : Vstack.Args) (exe : Executable) (stack_addr : Z) (emu : Emulation)
    (addr : Z) (sp : Reg) (loc : Z * Z)
    (t : list event) (pc size : Z) (rest : list event) (n1 : nat) (r1 : Run) :
  setup exe stack_addr (stack_size args) emu addr = Ok sp →
  location_from_address exe addr = Ok loc →
  trace emu = t ++ EvCode pc size :: rest →
  emu_start args t 0
    {| st := fresh_state args emu addr sp; stopped := false;
       clock := interrupt emu |} = (Ok (), n1, r1) →
  stopped r1 = false →
  Some pc ≠ stop (st r1) →
  clock r1 ≠ None →
  clock (_hook_code args pc size r1).2 = None →
  (∃ r2, _hook_code args pc size r1 = (Ok (Some false), r2) ∧
         stopped r2 = true) ∧
  process_entry args exe stack_addr emu addr
  = Ok (harvest args emu (tree_iter emu (writes (st r1)))).
Proof.
  intros Hsetup Hloc Htrace Hprefix Hgo Hstop Hclock Hdelivered.
  destruct (_hook_code args pc size r1) as [res r2] eqn:Hhook.
  destruct (code_hook_interrupted args pc size r1 Hstop res r2 Hhook)
    as (_ & Hwrites & Hswallow).
  destruct (Hswallow Hclock Hdelivered) as [-> Hstopped].
  split; [by exists r2|].
  unfold process_entry. rewrite Hsetup. cbn. rewrite Hloc. cbn.
  rewrite Htrace, (emu_start_prefix _ _ _ _ _ _ _ Hprefix Hgo).
  cbn [emu_start dispatch]. unfold mbind at 1, hook_bind at 1.
  rewrite Hhook. cbn. rewrite Hstopped. by rewrite Hwrites.
Qed.

Lemma cancellation_in_code_hook_is_swallowed_witness :
  let args := Scenario.defaults [0x401000] in
  let emu := Scenario.emulator Scenario.two_stores (Some 15%nat) in
  ∃ r1,
    (∃ r2, _hook_code args 0x40100E 1 r1 = (Ok (Some false), r2) ∧
           stopped r2 = true) ∧
    process_entry args Scenario.image_x86 0x410000 emu 0x401000
    = Ok (harvest args emu (tree_iter emu (writes (st r1)))).
Proof.
  cbv zeta. eexists.
  eapply (cancellation_in_code_hook_is_swallowed
            (Scenario.defaults [0x401000]) Scenario.image_x86 0x410000
            (Scenario.emulator Scenario.two_stores (Some 15%nat))
            0x401000 UC_X86_REG_ESP (0x400000, 0x410000)
            [ EvCode 0x401000 7;
              EvMemWrite Scenario.sp0 (Scenario.sp0 - 16) 4 0x6c6c6548;
              EvCode 0x401007 7;
              EvMemWrite Scenario.sp0 (Scenario.sp0 - 12) 4 0x6f57206f ]
            0x40100E 1 [EvCode 0x40100F 1]).
  - reflexivity.
  - reflexivity.
  - reflexivity.
  - vm_compute. reflexivity.
  - reflexivity.
  - discriminate.
  - discriminate.
  - vm_compute. reflexivity.
Defined.

(** C6, as stated, fails: the host interrupts in the code hook of the third
    instruction, after two stores have built eight bytes; [process] raises
    nothing and emits the eight bytes. *)
Lemma cancellation_emits_partial_results :
  let args := Scenario.defaults [0x401000] in
  let emu := Scenario.emulator Scenario.two_stores (Some 15%nat) in
  (∃ n r, emu_start args (trace emu) 0
            {| st := fresh_state args emu 0x401000 UC_X86_REG_ESP;
               stopped := false; clock := interrupt emu |} = (Ok (), n, r) ∧
          clock r = None ∧ stopped r = true) ∧
  Vstack.process args Scenario.image_x86 Scenario.capstone (fun _ => emu)
  = ([replicate 8 "A"%byte], None).
Proof.
  cbv zeta. split; [|by vm_compute].
  eexists _, _. split; [vm_compute; reflexivity|]. done.
Qed.

(** An interrupt that arrives in the memory-write hook, which has no
    handler, leaves [process]; nothing is emitted for the entry point. *)
Example cancellation_in_write_hook_propagates :
  Vstack.process (Scenario.defaults [0x401000]) Scenario.image_x86
    Scenario.capstone
    (fun _ => Scenario.emulator Scenario.two_stores (Some 4%nat))
  = ([], Some KeyboardInterrupt).
Proof. by vm_compute. Qed.

(** ** vstack: the harvest *)

(** The loop over the tree emits, in the order of the iteration, the
    regions whose size passes [patch_range]. *)
Lemma harvest_filter_map (args : Vstack.Args) (emu : Emulation)
    (it : list (Z * Z)) :
  harvest args emu it
  = map (fun i => mem_read emu (ibegin i) (iend i - ibegin i - 1))
      (List.filter (fun i => patch_range args (iend i - ibegin i - 1)) it).
Proof.
  induction it as [|i it IH]; [done|]. cbn.
  destruct (patch_range args (iend i - ibegin i - 1)); cbn; by rewrite IH.
Qed.

(** The set of the tree as CPython iterates it: what [list(set(l))] is for
    three sorted lists of intervals.  The second one makes the table grow
    from 8 to 32 slots. *)
Example iter_set_of_sorted_intervals :
  CPython.iter_set [(0, 6); (10, 16); (20, 26); (30, 36)]
  = [(30, 36); (10, 16); (20, 26); (0, 6)] ∧
  CPython.iter_set
    [(0x1000, 0x1009); (0x2000, 0x2009); (0x3000, 0x3009); (0x4000, 0x4009);
     (0x5000, 0x5009); (0x6000, 0x6009); (0x7000, 0x7009)]
  = [(0x4000, 0x4009); (0x2000, 0x2009); (0x7000, 0x7009); (0x6000, 0x6009);
     (0x3000, 0x3009); (0x1000, 0x1009); (0x5000, 0x5009)] ∧
  CPython.hash_pair (0x42F700, 0x42F709) = 4676863260744314406.
Proof. by vm_compute. Qed.

(** C9, as amended.  Whether [emu_start] returns (the code is through, or
    a hook has stopped the emulator) or raises [UcError], which is
    swallowed, the driver iterates the recorded interval set and emits,
    read back from the emulator's memory, exactly the regions whose size
    [e - b - 1] lies in [patch_range], each once, in the order in which
    the set of the tree iterates. *)
Theorem harvest_in_iteration_order
    (args : Vstack.Args) (exe : Executable) (stack_addr : Z) (emu : Emulation)
    (addr : Z) (sp : Reg) (loc : Z * Z) (res : res ()) (n : nat) (r : Run) :
  setup exe stack_addr (stack_size args) emu addr = Ok sp →
  location_from_address exe addr = Ok loc →
  emu_start args (trace emu) 0
    {| st := fresh_state args emu addr sp; stopped := false;
       clock := interrupt emu |} = (res, n, r) →
  res = Ok () ∨ res = Raise UcError →
  iterates emu (writes (st r)) →
  let regions :=
    List.filter (fun i => patch_range args (iend i - ibegin i - 1))
      (tree_iter emu (writes (st r))) in
  process_entry args exe stack_addr emu addr
  = Ok (map (fun i => mem_read emu (ibegin i) (iend i - ibegin i - 1))
          regions) ∧
  NoDup regions ∧
  (∀ i, i ∈ regions ↔
        i ∈ writes (st r) ∧ patch_range args (iend i - ibegin i - 1) = true).
Proof.
  intros Hsetup Hloc Hrun Hres Hiter. cbv zeta. split; [|split].
  - unfold process_entry. rewrite Hsetup. cbn. rewrite Hloc. cbn.
    rewrite Hrun, <- harvest_filter_map.
    by destruct Hres as [-> | ->].
  - apply NoDup_ListNoDup, List.NoDup_filter, NoDup_ListNoDup.
    unfold iterates in Hiter. rewrite Hiter. apply NoDup_elements.
  - intros i. rewrite list_elem_of_In, List.filter_In, <- list_elem_of_In.
    unfold iterates in Hiter. by rewrite Hiter, elem_of_elements.
Qed.

Lemma harvest_in_iteration_order_witness :
  let args := Scenario.defaults [0x401000] in
  let emu := Scenario.striped (Scenario.three_stores ++ [EvError]) None in
  ∃ r,
    writes (st r)
    = {[ (0x42F700, 0x42F709); (0x42F900, 0x42F909); (0x42FD00, 0x42FD09) ]} ∧
    let regions :=
      List.filter (fun i => patch_range args (iend i - ibegin i - 1))
        (tree_iter emu (writes (st r))) in
    process_entry args Scenario.image_x86 0x410000 emu 0x401000
    = Ok (map (fun i => mem_read emu (ibegin i) (iend i - ibegin i - 1))
            regions) ∧
    NoDup regions ∧
    (∀ i, i ∈ regions ↔
          i ∈ writes (st r) ∧
          patch_range args (iend i - ibegin i - 1) = true).
Proof.
  cbv zeta. eexists. split; cycle 1.
  - eapply (harvest_in_iteration_order
              (Scenario.defaults [0x401000]) Scenario.image_x86 0x410000
              (Scenario.striped (Scenario.three_stores ++ [EvError]) None)
              0x401000 UC_X86_REG_ESP (0x400000, 0x410000)
              (Raise UcError) 3%nat).
    + reflexivity.
    + reflexivity.
    + vm_compute. reflexivity.
    + by right.
    + unfold iterates.
      match goal with
      | |- ?l1 ≡ₚ ?l2 =>
          let l1' := eval vm_compute in l1 in
          let l2' := eval vm_compute in l2 in
          replace l1 with l1' by (vm_compute; reflexivity);
          replace l2 with l2' by (vm_compute; reflexivity)
      end.
      apply NoDup_Permutation.
      * apply (bool_decide_unpack _). by vm_compute.
      * apply (bool_decide_unpack _). by vm_compute.
      * intros i. rewrite !elem_of_cons, !elem_of_nil. tauto.
  - by vm_compute.
Defined.

(** C9, as stated, fails where "interval order" is the address order of
    the intervals: three stores of eight bytes at [0x42F700], [0x42F900]
    and [0x42FD00] leave three regions, and the set of the tree iterates,
    and the driver emits, the one at [0x42F900] first and the one at
    [0x42F700] last. *)
Lemma harvest_order_is_not_address_order :
  let args := Scenario.defaults [0x401000] in
  let emu := Scenario.striped Scenario.three_stores None in
  (∃ n r, emu_start args (trace emu) 0
            {| st := fresh_state args emu 0x401000 UC_X86_REG_ESP;
               stopped := false; clock := interrupt emu |} = (Ok (), n, r) ∧
          tree_iter emu (writes (st r))
          = [(0x42F900, 0x42F909); (0x42FD00, 0x42FD09);
             (0x42F700, 0x42F709)]) ∧
  Vstack.process args Scenario.image_x86 Scenario.capstone (fun _ => emu)
  = ([replicate 8 xf9; replicate 8 xfd; replicate 8 xf7], None) ∧
  Scenario.stripe 0x42F900 = xf9 ∧ Scenario.stripe 0x42F700 = xf7.
Proof.
  cbv zeta. split; [|by vm_compute].
  eexists _, _. split; [vm_compute; reflexivity|]. by vm_compute.
Qed.

(** The three ways to end, on the same two stores: the code is through, a
    hook stops the emulator (here by the wait threshold), the emulator
    fails.  The eight bytes are emitted each time. *)
Example harvest_same_for_each_termination :
  let args := Scenario.defaults [0x401000] in
  let exe := Scenario.image_x86 in
  Vstack.process args exe Scenario.capstone
    (fun _ => Scenario.emulator Scenario.two_stores None)
  = ([replicate 8 "A"%byte], None) ∧
  Vstack.process (Scenario.arguments [0x401000] 0 1) exe Scenario.capstone
    (fun _ => Scenario.emulator Scenario.two_stores None)
  = ([replicate 8 "A"%byte], None) ∧
  Vstack.process args exe Scenario.capstone
    (fun _ => Scenario.emulator Scenario.two_stores_fault None)
  = ([replicate 8 "A"%byte], None).
Proof. by vm_compute. Qed.

(** * Further properties *)

(** ** The write tracker: what the stored intervals cover *)

Section IntervalCover.

#[local] Instance interval_le_total' : Total interval_le.
Proof. intros [a b] [c d]. unfold interval_le, ibegin, iend. cbn. lia. Qed.

#[local] Instance interval_le_trans' : Transitive interval_le.
Proof.
  intros [a b] [c d] [e f]. unfold interval_le, ibegin, iend. cbn. lia.
Qed.

(** The merge loop keeps the set of points that the intervals hold. *)
Lemma merge_series_covers (strict : bool) (rest : list (Z * Z)) :
  ∀ lower (x : Z),
    StronglySorted (fun i j => ibegin i ≤ ibegin j) (lower :: rest) →
    (∃ i, i ∈ merge_series strict lower rest ∧ ibegin i ≤ x < iend i) ↔
    (∃ i, i ∈ lower :: rest ∧ ibegin i ≤ x < iend i).
Proof.
  induction rest as [|higher rest IH]; intros lower x Hsorted; [done|].
  apply StronglySorted_inv in Hsorted as [Hsorted Hlow].
  apply Forall_cons in Hlow as [Hlh Hlow].
  cbn [merge_series].
  destruct (bool_decide (ibegin higher < iend lower)
            || negb strict && bool_decide (ibegin higher = iend lower))
    eqn:Hmerge.
  - assert (Hle : ibegin higher ≤ iend lower).
    { apply orb_true_iff in Hmerge as [H|H].
      - apply bool_decide_eq_true in H. lia.
      - apply andb_true_iff in H as [_ H].
        apply bool_decide_eq_true in H. lia. }
    rewrite IH.
    + split; intros (i & Hi & Hx).
      * apply elem_of_cons in Hi as [->|Hi].
        -- unfold ibegin, iend in Hx. cbn in Hx.
           destruct (decide (x < iend lower)).
           ++ exists lower. split; [left|]. unfold ibegin, iend in *. lia.
           ++ exists higher. split; [right; left|].
              unfold ibegin, iend in *. lia.
        -- exists i. split; [by do 2 right|done].
      * apply elem_of_cons in Hi as [->|Hi];
          [|apply elem_of_cons in Hi as [->|Hi]].
        -- eexists. split; [left|]. unfold ibegin, iend in *. cbn. lia.
        -- eexists. split; [left|]. unfold ibegin, iend in *. cbn. lia.
        -- exists i. split; [by right|done].
    + apply StronglySorted_inv in Hsorted as [Hsorted _].
      constructor; [done|]. eapply Forall_impl; [exact Hlow|].
      intros i. unfold ibegin. by cbn.
  - split; intros (i & Hi & Hx).
    + apply elem_of_cons in Hi as [->|Hi].
      * exists lower. split; [left|done].
      * destruct (proj1 (IH higher x Hsorted)) as (j & Hj & Hjx); [by exists i|].
        exists j. split; [by right|done].
    + apply elem_of_cons in Hi as [->|Hi].
      * exists lower. split; [left|done].
      * destruct (proj2 (IH higher x Hsorted)) as (j & Hj & Hjx); [by exists i|].
        exists j. split; [by right|done].
Qed.

(** [merge_overlaps] neither loses nor gains a covered point. *)
Lemma merge_overlaps_covers (strict : bool) (t : gset (Z * Z)) (x : Z) :
  covered x (merge_overlaps strict t) ↔ covered x t.
Proof.
  unfold merge_overlaps, covered.
  pose proof (merge_sort_Permutation interval_le (elements t)) as Hperm.
  pose proof (StronglySorted_merge_sort interval_le (elements t)) as Hsorted.
  destruct (merge_sort interval_le (elements t)) as [|first rest] eqn:Hms;
    [done|].
  assert (Hs : StronglySorted (fun i j => ibegin i ≤ ibegin j) (first :: rest)).
  { clear -Hsorted. induction Hsorted as [|a l Hl IH Ha]; constructor; auto.
    eapply Forall_impl; [exact Ha|]. intros i. unfold interval_le. lia. }
  pose proof (merge_series_covers strict rest first x Hs) as Hcov.
  split; intros (i & Hi & Hx).
  - apply elem_of_list_to_set in Hi.
    destruct (proj1 Hcov) as (j & Hj & Hjx); [by exists i|].
    exists j. split; [|done]. rewrite Hperm in Hj. by apply elem_of_elements.
  - destruct (proj2 Hcov) as (j & Hj & Hjx).
    { exists i. split; [|done]. rewrite Hperm. by apply elem_of_elements. }
    exists j. split; [|done]. by apply elem_of_list_to_set.
Qed.

Lemma addi_covers (b e : Z) (t t' : gset (Z * Z)) (x : Z) :
  addi b e t = Ok t' → covered x t' ↔ covered x t ∨ b ≤ x < e.
Proof.
  unfold addi, is_null, covered. intros Hadd.
  repeat case_bool_decide; simplify_eq.
  - split; [by left|]. intros [?|Hx]; [done|]. by exists (b, e).
  - split.
    + intros (i & Hi & Hx). apply elem_of_union in Hi as [Hi|Hi].
      * apply elem_of_singleton in Hi. subst i. by right.
      * left. by exists i.
    + intros [(i & Hi & Hx)|Hx].
      * exists i. split; [|done]. apply elem_of_union. by right.
      * exists (b, e). split; [|done]. apply elem_of_union. left.
        by apply elem_of_singleton.
Qed.

Lemma record_all_covers (ws : list (Z * Z)) : ∀ (t t' : gset (Z * Z)) (x : Z),
  record_all ws t = Ok t' →
  covered x t' ↔ covered x t ∨ ∃ w, w ∈ ws ∧ w.1 ≤ x ≤ w.1 + w.2.
Proof.
  induction ws as [|[a sz] ws IH]; intros t t' x Hrec.
  - cbn in Hrec. simplify_eq. split; [by left|].
    intros [?|(w & Hw & _)]; [done|]. by apply elem_of_nil in Hw.
  - cbn [record_all fst snd] in Hrec. unfold record in Hrec.
    destruct (addi a (a + sz + 1) t) as [t1|e] eqn:Hadd; [|done].
    cbn in Hrec. rewrite (IH _ _ x Hrec), merge_overlaps_covers,
      (addi_covers _ _ _ _ x Hadd).
    split.
    + intros [[?|Hx]|(w & Hw & Hx)]; [by left|right..].
      * exists (a, sz). split; [left|]. cbn. lia.
      * exists w. split; [by right|done].
    + intros [?|(w & Hw & Hx)]; [by do 2 left|].
      apply elem_of_cons in Hw as [->|Hw].
      * left. right. cbn in Hx. lia.
      * right. by exists w.
Qed.

End IntervalCover.

(** After any sequence of recorded writes, the stored intervals cover
    the bytes from [addr] to [addr + size] of each write, the byte behind
    it included, and nothing else. *)
Theorem recorded_writes_cover_what_was_written (ws : list (Z * Z)) :
  Forall (fun w => 0 ≤ w.2) ws →
  ∃ t : gset (Z * Z),
    record_all ws ∅ = Ok t ∧
    ∀ x, covered x t ↔ ∃ w, w ∈ ws ∧ w.1 ≤ x ≤ w.1 + w.2.
Proof.
  intros Hsz.
  destruct (record_all_apart ws ∅ Hsz) as (t & Ht & _).
  - intros i Hi. set_solver.
  - intros i j Hi. set_solver.
  - exists t. split; [done|]. intros x.
    rewrite (record_all_covers ws ∅ t x Ht). split; [|by right].
    intros [(i & Hi & _)|?]; [set_solver|done].
Qed.

Lemma recorded_writes_cover_what_was_written_witness :
  ∃ t : gset (Z * Z),
    record_all [(0x1000, 4); (0x1004, 4); (0x2000, 2)] ∅ = Ok t ∧
    ∀ x, covered x t ↔
         ∃ w, w ∈ [(0x1000, 4); (0x1004, 4); (0x2000, 2)] ∧ w.1 ≤ x ≤ w.1 + w.2.
Proof.
  apply (recorded_writes_cover_what_was_written
           [(0x1000, 4); (0x1004, 4); (0x2000, 2)]).
  repeat constructor; cbn; lia.
Defined.

(** ** vstack: what the hooks leave alone *)

Ltac hook_cases_addi :=
  repeat (cbn in *;
    match goal with
    | H : context [if ?b then _ else _] |- _ => destruct b eqn:?
    | H : context [match callstack ?s with _ => _ end] |- _ =>
        destruct (callstack s) eqn:?
    | H : context [match addi ?b ?e ?t with _ => _ end] |- _ =>
        destruct (addi b e t) eqn:?
    end).

Ltac bool_facts :=
  repeat match goal with
  | H : bool_decide _ = true |- _ => apply bool_decide_eq_true in H
  | H : bool_decide _ = false |- _ => apply bool_decide_eq_false in H
  end.

Lemma well_formed_record (b e : Z) (t t1 : gset (Z * Z)) :
  well_formed t → addi b e t = Ok t1 → well_formed (merge_overlaps true t1).
Proof.
  intros [Hp _] Hadd.
  destruct (merge_overlaps_apart true t1 (addi_proper _ _ _ _ Hp Hadd))
    as [Hp1 Hap].
  split; [done|]. intros i j Hi Hj Hne.
  apply (before_not_overlaps true). by apply Hap.
Qed.

Lemma code_hook_frame (args : Vstack.Args) (addr size : Z) (r : Run)
    (res : res (option bool)) (r' : Run) :
  _hook_code args addr size r = (res, r') →
  writes (st r') = writes (st r) ∧ stop (st r') = stop (st r) ∧
  (clock r = None → clock r' = None) ∧
  (0 ≤ waiting (st r) ≤ wait args + 1 → 0 ≤ waiting (st r') ≤ wait args + 1).
Proof.
  hook_unfold. destruct r as [s b k]. cbn.
  destruct k as [[|[|[|[|[|[|[|[|k]]]]]]]]|]; cbn.
  all: intros H; hook_cases; inversion H; subst; cbn; bool_facts;
       repeat split; intros; try done; try lia.
Qed.

Lemma write_hook_frame (args : Vstack.Args) (sp addr size value : Z) (r : Run)
    (res : res ()) (r' : Run) :
  _hook_mem_write args sp addr size value r = (res, r') →
  stopped r' = stopped r ∧ address (st r') = address (st r) ∧
  previous_address (st r') = previous_address (st r) ∧
  stop (st r') = stop (st r) ∧
  (clock r = None → clock r' = None) ∧
  (0 ≤ waiting (st r) ≤ wait args + 1 → 0 ≤ waiting (st r') ≤ wait args + 1) ∧
  (res ≠ Raise KeyboardInterrupt →
   well_formed (writes (st r)) → well_formed (writes (st r'))).
Proof.
  hook_unfold. destruct r as [s b k]. cbn.
  destruct k as [[|[|[|[|[|[|[|k]]]]]]]|]; cbn.
  all: intros H; hook_cases_addi; inversion H; subst; cbn; bool_facts;
       repeat match goal with |- _ ∧ _ => split end;
       intros; try done; try lia;
       try (eapply well_formed_record; eassumption).
Qed.

Lemma dispatch_frame (args : Vstack.Args) (ev : event) (r : Run)
    (res : res ()) (r' : Run) :
  dispatch args ev r = (res, r') →
  stop (st r') = stop (st r) ∧
  (clock r = None → clock r' = None) ∧
  (0 ≤ waiting (st r) ≤ wait args + 1 → 0 ≤ waiting (st r') ≤ wait args + 1) ∧
  (res ≠ Raise KeyboardInterrupt →
   well_formed (writes (st r)) → well_formed (writes (st r'))).
Proof.
  destruct ev as [addr size|sp addr size value| |map_ok|]; cbn [dispatch].
  - unfold mbind at 1, hook_bind at 1.
    destruct (_hook_code args addr size r) as [res0 r0] eqn:Hhook.
    destruct (code_hook_frame _ _ _ _ _ _ Hhook) as (Hw & Hs & Hc & Hb).
    destruct res0; cbn; intros [= <- <-]; rewrite Hw; done.
  - intros Hhook.
    destruct (write_hook_frame _ _ _ _ _ _ _ _ Hhook)
      as (_ & _ & _ & Hs & Hc & Hb & Hwf). done.
  - hook_unfold. destruct r as [s b [[|k]|]]; cbn; intros [= <- <-]; done.
  - hook_unfold. destruct r as [s b [[|k]|]], map_ok; cbn;
      intros [= <- <-]; done.
  - unfold raise. intros [= <- <-]. done.
Qed.

(** What a whole run keeps: the stop address, the absence of an interrupt,
    the bounds of the wait counter, and, unless the run is cut by the
    host's interrupt, a well-formed interval set. *)
Lemma emu_start_frame (args : Vstack.Args) (t : list event) :
  ∀ (n : nat) (r : Run) (res : res ()) (n' : nat) (r' : Run),
    emu_start args t n r = (res, n', r') →
    stop (st r') = stop (st r) ∧
    (clock r = None → clock r' = None) ∧
    (0 ≤ waiting (st r) ≤ wait args + 1 →
     0 ≤ waiting (st r') ≤ wait args + 1) ∧
    (res ≠ Raise KeyboardInterrupt →
     well_formed (writes (st r)) → well_formed (writes (st r'))).
Proof.
  induction t as [|ev t IH]; intros n r res n' r' Hrun.
  - cbn in Hrun. by simplify_eq.
  - cbn [emu_start] in Hrun.
    destruct (dispatch args ev r) as [res0 r0] eqn:Hd.
    destruct (dispatch_frame _ _ _ _ _ Hd) as (Hs & Hc & Hb & Hwf).
    destruct res0 as [[]|e].
    + destruct (stopped r0).
      * simplify_eq. split_and!; auto.
      * destruct (IH _ _ _ _ _ Hrun) as (Hs' & Hc' & Hb' & Hwf').
        split; [congruence|]. split; [auto|]. split; [auto|].
        intros Hres Hw. apply Hwf'; [done|]. by apply Hwf.
    + simplify_eq. split_and!; auto.
Qed.

(** The interval set that the driver harvests is well formed: however the
    run went, with or without an interrupt that the code hook swallowed,
    its intervals are proper and no two of them overlap. *)
Theorem harvested_intervals_are_well_formed
    (args : Vstack.Args) (emu : Emulation) (addr : Z) (sp : Reg)
    (t : list event) (host : option nat)
    (res : res ()) (n : nat) (r : Run) :
  emu_start args t 0
    {| st := fresh_state args emu addr sp; stopped := false; clock := host |}
  = (res, n, r) →
  res ≠ Raise KeyboardInterrupt →
  well_formed (writes (st r)).
Proof.
  intros Hrun Hres.
  destruct (emu_start_frame _ _ _ _ _ _ _ Hrun) as (_ & _ & _ & Hwf).
  apply Hwf; [done|]. cbn. split; intros i; set_solver.
Qed.

Lemma harvested_intervals_are_well_formed_witness :
  ∃ r, writes (st r) = {[ (Scenario.sp0 - 16, Scenario.sp0 - 7) ]} ∧
       well_formed (writes (st r)).
Proof.
  eexists. split; cycle 1.
  - eapply (harvested_intervals_are_well_formed
              (Scenario.defaults [0x401000])
              (Scenario.emulator Scenario.two_stores (Some 15%nat))
              0x401000 UC_X86_REG_ESP Scenario.two_stores (Some 15%nat)
              (Ok ()) 2%nat).
    + vm_compute. reflexivity.
    + discriminate.
  - by vm_compute.
Defined.

(** The wait counter stays between 0 and [wait + 1] throughout any run. *)
Theorem waiting_stays_within_threshold
    (args : Vstack.Args) (emu : Emulation) (addr : Z) (sp : Reg)
    (t : list event) (host : option nat)
    (res : res ()) (n : nat) (r : Run) :
  -1 ≤ wait args →
  emu_start args t 0
    {| st := fresh_state args emu addr sp; stopped := false; clock := host |}
  = (res, n, r) →
  0 ≤ waiting (st r) ≤ wait args + 1.
Proof.
  intros Hwait Hrun.
  destruct (emu_start_frame _ _ _ _ _ _ _ Hrun) as (_ & _ & Hb & _).
  apply Hb. cbn. lia.
Qed.

Lemma waiting_stays_within_threshold_witness :
  ∃ r, emu_start (Scenario.arguments [0x401000] 2 1)
         (Scenario.three_nops ++ [EvCode 0x401003 1; EvCode 0x401004 1]) 0
         {| st := Scenario.entry_state (Scenario.arguments [0x401000] 2 1);
            stopped := false; clock := None |} = (Ok (), 3%nat, r) ∧
       0 ≤ waiting (st r) ≤ 2 + 1.
Proof.
  eexists. split; [vm_compute; reflexivity|].
  eapply (waiting_stays_within_threshold
            (Scenario.arguments [0x401000] 2 1) (Scenario.emulator [] None)
            0x401000 UC_X86_REG_ESP
            (Scenario.three_nops ++ [EvCode 0x401003 1; EvCode 0x401004 1])
            None (Ok ()) 3%nat).
  - vm_compute. discriminate.
  - vm_compute. reflexivity.
Defined.

(** When the stop address is about to execute, the run ends there: the
    instruction is not executed, the state is the one its predecessor left,
    and nothing that would follow has any effect. *)
Theorem stop_address_ends_the_run
    (args : Vstack.Args) (emu : Emulation) (addr : Z) (sp : Reg)
    (t : list event) (pc size : Z) (rest : list event) (n : nat) (r1 : Run) :
  args_stop args = Some pc →
  emu_start args t 0
    {| st := fresh_state args emu addr sp; stopped := false; clock := None |}
  = (Ok (), n, r1) →
  stopped r1 = false →
  emu_start args (t ++ EvCode pc size :: rest) 0
    {| st := fresh_state args emu addr sp; stopped := false; clock := None |}
  = (Ok (), n, {| st := st r1; stopped := true; clock := None |}).
Proof.
  intros Hstop Hrun Hgo.
  destruct (emu_start_frame _ _ _ _ _ _ _ Hrun) as (Hs & Hc & _ & _).
  rewrite (emu_start_prefix _ _ _ _ _ _ _ Hrun Hgo).
  destruct r1 as [s b k]. cbn in *. subst b. rewrite (Hc eq_refl).
  cbn [emu_start dispatch]. hook_unfold. cbn.
  rewrite bool_decide_eq_true_2 by congruence. done.
Qed.

Lemma stop_address_ends_the_run_witness :
  let args :=
    {| args_address := [0x401000]; args_stop := Some 0x401007;
       patch_range := fun size => bool_decide (5 ≤ size);
       write_range := fun size => bool_decide (1 ≤ size);
       wait := 10; calls_wait := false;
       stack_size := 0x10000; block_size := 0x1000 |} in
  ∃ r1,
    emu_start args Scenario.two_stores 0
      {| st := fresh_state args (Scenario.emulator Scenario.two_stores None)
                 0x401000 UC_X86_REG_ESP;
         stopped := false; clock := None |}
    = (Ok (), 1%nat, {| st := st r1; stopped := true; clock := None |}) ∧
    writes (st r1) = {[ (Scenario.sp0 - 16, Scenario.sp0 - 11) ]}.
Proof.
  cbv zeta. eexists. split.
  - eapply (stop_address_ends_the_run _
              (Scenario.emulator Scenario.two_stores None)
              0x401000 UC_X86_REG_ESP
              [ EvCode 0x401000 7;
                EvMemWrite Scenario.sp0 (Scenario.sp0 - 16) 4 0x6c6c6548 ]
              0x401007 7
              [ EvMemWrite Scenario.sp0 (Scenario.sp0 - 12) 4 0x6f57206f;
                EvCode 0x40100E 1; EvCode 0x40100F 1 ]).
    + reflexivity.
    + vm_compute. reflexivity.
    + reflexivity.
  - by vm_compute.
Defined.

(** ** vstack: the code hook, case by case *)

(** An instruction that the code hook has gone through leaves the state
    predicting the address behind it, and remembering the prediction that
    was there before. *)
Theorem code_hook_predicts_fall_through
    (args : Vstack.Args) (addr size : Z) (s : EmuState) (r' : Run) :
  _hook_code args addr size (run0 s) = (Ok None, r') →
  address (st r') = addr + size ∧ previous_address (st r') = address s.
Proof.
  hook_unfold. intros H. hook_cases; inversion H; subst; cbn; bool_facts;
    split; try done; try lia.
  all: destruct (decide (addr = address s)); [lia|done].
Qed.

Lemma code_hook_predicts_fall_through_witness :
  let args := Scenario.defaults [0x401000] in
  ∃ r', _hook_code args 0x402000 7 (run0 (Scenario.entry_state args))
        = (Ok None, r') ∧
        address (st r') = 0x402000 + 7 ∧
        previous_address (st r') = 0x401000.
Proof.
  cbv zeta. eexists. split; [vm_compute; reflexivity|].
  apply (code_hook_predicts_fall_through (Scenario.defaults [0x401000])
           0x402000 7 (Scenario.entry_state (Scenario.defaults [0x401000]))).
  vm_compute. reflexivity.
Defined.

Lemma singleton_by_last (l : list Z) (x : Z) :
  Z.of_nat (length l) - 1 = 0 → last l = Some x → l = [x].
Proof.
  destruct l as [|a [|b l]]; cbn [length]; intros Hlen Hlast; try lia.
  cbn in Hlast. congruence.
Qed.

Ltac stack_facts :=
  repeat match goal with
  | H : _ && _ = true |- _ => apply andb_true_iff in H as [? ?]
  | H : _ || _ = true |- _ => apply orb_true_iff in H as [?|?]
  | H : _ && _ = false |- _ => apply andb_false_iff in H as [?|?]
  | H : _ || _ = false |- _ => apply orb_false_iff in H as [? ?]
  | H : bool_decide _ = true |- _ => apply bool_decide_eq_true in H
  | H : bool_decide _ = false |- _ => apply bool_decide_eq_false in H
  | H : false = true |- _ => discriminate H
  | H : true = false |- _ => discriminate H
  end.

(** With [calls_wait] on, the wait counter counts the instructions outside
    calls only: an instruction that the code hook lets through raises the
    counter when the shadow call stack is empty, or becomes empty because
    the instruction is the target of the last return, and leaves it alone
    otherwise. *)
Theorem calls_wait_freezes_counter_inside_call
    (args : Vstack.Args) (addr size : Z) (s : EmuState) (r' : Run) :
  calls_wait args = true →
  _hook_code args addr size (run0 s) = (Ok None, r') →
  (callstack s = [] ∨ (addr ≠ address s ∧ callstack s = [addr]) →
     waiting (st r') = waiting s + 1) ∧
  (callstack s ≠ [] → ¬ (addr ≠ address s ∧ callstack s = [addr]) →
     waiting (st r') = waiting s).
Proof.
  intros Hcw. hook_unfold. rewrite Hcw.
  intros H. hook_cases; inversion H; subst; cbn; bool_facts.
  all: split; intros; try done.
  all: exfalso; stack_facts; try lia; try congruence.
  all: repeat match goal with
       | H : _ ∨ _ |- _ => destruct H
       | H : _ ∧ _ |- _ => destruct H
       end; try congruence; try lia.
  all: try (match goal with
       | Hl : Z.of_nat (S (length ?l)) - 1 = 0,
         Hx : last (?z :: ?l) = Some ?a |- _ =>
           pose proof (singleton_by_last (z :: l) a Hl Hx)
       end; intuition congruence).
  all: try (simplify_eq; cbn in *; first [lia | congruence | done]).
  all: try (destruct (callstack s) as [|? [|? ?]] eqn:?; cbn in *;
            simplify_eq; first [lia | congruence | done | intuition congruence]).
Qed.

Lemma calls_wait_freezes_counter_inside_call_witness :
  let args :=
    {| args_address := [0x401000]; args_stop := None;
       patch_range := fun size => bool_decide (5 ≤ size);
       write_range := fun size => bool_decide (1 ≤ size);
       wait := 10; calls_wait := true;
       stack_size := 0x10000; block_size := 0x1000 |} in
  let s := set_callstack [0x401005] (Scenario.entry_state args) in
  ∃ r', _hook_code args 0x402000 3 (run0 s) = (Ok None, r') ∧
        callstack s ≠ [] ∧
        waiting (st r') = waiting s.
Proof.
  cbv zeta. eexists. split; [vm_compute; reflexivity|]. split; [done|].
  eapply (calls_wait_freezes_counter_inside_call
            {| args_address := [0x401000]; args_stop := None;
               patch_range := fun size => bool_decide (5 ≤ size);
               write_range := fun size => bool_decide (1 ≤ size);
               wait := 10; calls_wait := true;
               stack_size := 0x10000; block_size := 0x1000 |} 0x402000 3).
  - reflexivity.
  - vm_compute. reflexivity.
  - done.
  - intros [_ H]. discriminate H.
Defined.

Ltac conj_split := repeat match goal with |- _ ∧ _ => split end.

Ltac hook_split H :=
  repeat (cbn in H;
    match type of H with
    | context [if ?b then _ else _] => destruct b eqn:?
    | context [match callstack ?s with _ => _ end] =>
        destruct (callstack s) eqn:?
    | context [match addi ?b ?e ?t with _ => _ end] =>
        destruct (addi b e t) eqn:?
    end).

(** What a return does to the shadow call stack and to the ceiling. *)
Lemma code_hook_return
    (args : Vstack.Args) (addr size : Z) (s : EmuState) (r' : Run) :
  addr ≠ address s →
  last (callstack s) = Some addr →
  _hook_code args addr size (run0 s) = (Ok None, r') →
  callstack (st r') = removelast (callstack s) ∧
  stack_ceiling (st r')
  = (if decide (Z.of_nat (length (callstack s)) - 1 = 0)
     then 0 else stack_ceiling s) ∧
  retaddr (st r') = retaddr s.
Proof.
  intros Hbranch Hlast H. revert H. hook_unfold.
  intros H. hook_split H; inversion H; subst; stack_facts.
  all: try congruence; try done.
  all: cbn [st callstack stack_ceiling retaddr set_address set_waiting
            set_stack_ceiling set_callstack set_previous_address set_retaddr];
       repeat match goal with
       | E : callstack _ = _ |- _ => rewrite E
       end;
       cbn [length] in *; split_and!; try done;
       try case_decide; try done; try lia.
  all: exfalso; destruct (callstack s); cbn in *; first [congruence | lia].
Qed.

(** A branch to the address on top of the shadow call stack is taken for
    a return: that one address is popped, and the ceiling is cleared only
    when the stack is empty afterwards.  The return-address guess is left
    as it was. *)
Theorem return_pops_one_frame
    (args : Vstack.Args) (addr size : Z) (cs : list Z) (s : EmuState)
    (r' : Run) :
  callstack s = cs ++ [addr] →
  addr ≠ address s →
  _hook_code args addr size (run0 s) = (Ok None, r') →
  callstack (st r') = cs ∧
  stack_ceiling (st r') = (if decide (cs = []) then 0 else stack_ceiling s) ∧
  retaddr (st r') = retaddr s.
Proof.
  intros Hcs Hbranch Hhook.
  destruct (code_hook_return args addr size s r' Hbranch) as (H1 & H2 & H3);
    [by rewrite Hcs, last_snoc|done|].
  rewrite Hcs, removelast_last in H1. rewrite Hcs, length_app in H2. cbn in H2.
  split_and!; [done| |done]. rewrite H2.
  destruct cs; repeat case_decide; try done; cbn in *; lia.
Qed.

Lemma return_pops_one_frame_witness :
  let args := Scenario.defaults [0x401000] in
  let s :=
    set_stack_ceiling Scenario.sp0
      (set_callstack [0x401005; 0x402008] (Scenario.entry_state args)) in
  ∃ r', _hook_code args 0x402008 3 (run0 s) = (Ok None, r') ∧
        callstack (st r') = [0x401005] ∧
        stack_ceiling (st r') = Scenario.sp0.
Proof.
  cbv zeta. eexists. split; [vm_compute; reflexivity|].
  destruct (return_pops_one_frame (Scenario.defaults [0x401000])
              0x402008 3 [0x401005]
              (set_stack_ceiling Scenario.sp0
                 (set_callstack [0x401005; 0x402008]
                    (Scenario.entry_state (Scenario.defaults [0x401000]))))
              _ eq_refl ltac:(vm_compute; discriminate) eq_refl)
    as (H1 & H2 & _).
  split; [exact H1|exact H2].
Defined.

(** ** vstack: the memory-write hook, case by case *)

(** [value & ((1 << (size * 8)) - 1)] is the value modulo [2^(8 size)]. *)
Lemma land_mask (value size : Z) :
  0 ≤ size →
  Z.land value (Z.shiftl 1 (size * 8) - 1) = value `mod` 2 ^ (8 * size).
Proof.
  intros Hsz. rewrite Z.shiftl_1_l.
  replace (2 ^ (size * 8) - 1) with (Z.ones (size * 8))
    by (rewrite Z.ones_equiv; lia).
  rewrite Z.land_ones by lia. f_equal. f_equal. lia.
Qed.

(** The interval of a write of a size that is not negative holds a point,
    so that [addi] takes it. *)
Lemma addi_never_raises_on_write (addr size : Z) (t : gset (Z * Z)) (e : exn) :
  0 ≤ size → addi addr (addr + size + 1) t ≠ Raise e.
Proof.
  intros Hsz. unfold addi, is_null, ibegin, iend. cbn.
  repeat case_bool_decide; try done. lia.
Qed.

(** What the hook does to the shadow call stack, and what it leaves. *)
Lemma write_hook_effect
    (args : Vstack.Args) (sp addr size value : Z) (s : EmuState) :
  0 ≤ size →
  ∃ s', _hook_mem_write args sp addr size value (run0 s) = (Ok (), run0 s') ∧
    (value `mod` 2 ^ (8 * size) = address s →
       retaddr s' = Some (address s) ∧
       callstack s' = callstack s ++ [address s] ∧
       stack_ceiling s'
       = (if decide (callstack s = []) then sp else stack_ceiling s)) ∧
    (value `mod` 2 ^ (8 * size) ≠ address s →
       retaddr s' = None ∧ callstack s' = callstack s ∧
       stack_ceiling s' = stack_ceiling s) ∧
    address s' = address s ∧ stop s' = stop s ∧
    disassembles s' = disassembles s ∧
    (waiting s' = 0 ∨ waiting s' = waiting s).
Proof.
  intros Hsz.
  destruct (_hook_mem_write args sp addr size value (run0 s)) as [res r']
    eqn:H.
  revert H. hook_unfold. cbv zeta. rewrite land_mask by done. intros H.
  hook_split H; inversion H; subst; stack_facts; try lia.
  all: try (exfalso; eapply addi_never_raises_on_write; eassumption).
  all: eexists; (split; [reflexivity|]); cbn; conj_split; intros;
       conj_split; try done; try case_decide; try done; try congruence;
       auto.
Qed.

(** The hook takes a write for the push of a return address exactly when
    the value, cut to the size of the write, is the address that the code
    hook predicted; then it pushes that address and remembers it, and it
    captures the stack pointer as the ceiling if the shadow call stack was
    empty.  Any other write forgets the return-address guess. *)
Theorem write_hook_detects_push_modulo_size
    (args : Vstack.Args) (sp addr size value : Z) (s : EmuState) :
  0 ≤ size →
  ∃ s', _hook_mem_write args sp addr size value (run0 s) = (Ok (), run0 s') ∧
    (value `mod` 2 ^ (8 * size) = address s →
       retaddr s' = Some (address s) ∧
       callstack s' = callstack s ++ [address s] ∧
       stack_ceiling s'
       = (if decide (callstack s = []) then sp else stack_ceiling s)) ∧
    (value `mod` 2 ^ (8 * size) ≠ address s →
       retaddr s' = None ∧ callstack s' = callstack s ∧
       stack_ceiling s' = stack_ceiling s).
Proof.
  intros Hsz.
  destruct (write_hook_effect args sp addr size value s Hsz)
    as (s' & Hhook & Hpush & Hother & _).
  by exists s'.
Qed.

Lemma write_hook_detects_push_modulo_size_witness :
  ∃ s', _hook_mem_write (Scenario.defaults [0x401000]) Scenario.sp0
          (Scenario.sp0 - 4) 4 (0x401000 - 2 ^ 32)
          (run0 (Scenario.entry_state (Scenario.defaults [0x401000])))
        = (Ok (), run0 s') ∧
        retaddr s' = Some 0x401000 ∧ callstack s' = [0x401000] ∧
        stack_ceiling s' = Scenario.sp0.
Proof.
  destruct (write_hook_detects_push_modulo_size
              (Scenario.defaults [0x401000]) Scenario.sp0
              (Scenario.sp0 - 4) 4 (0x401000 - 2 ^ 32)
              (Scenario.entry_state (Scenario.defaults [0x401000])))
    as (s' & Hhook & Hpush & _); [lia|].
  exists s'. split; [exact Hhook|]. apply Hpush. reflexivity.
Defined.

(** A write that the ceiling test lets through and whose size is in
    [write_range] resets the wait counter and is recorded: afterwards the
    stored intervals cover what they covered before and the bytes from
    [addr] to [addr + size]. *)
Theorem logged_write_is_recorded
    (args : Vstack.Args) (sp addr size value : Z) (s : EmuState) :
  0 ≤ size →
  write_range args size = true →
  ¬ (0 < ceiling_in_force sp size value s ∧
     ceiling_in_force sp size value s - 0x200 ≤ addr
       < ceiling_in_force sp size value s) →
  ∃ s', _hook_mem_write args sp addr size value (run0 s) = (Ok (), run0 s') ∧
        record addr size (writes s) = Ok (writes s') ∧
        waiting s' = 0 ∧
        ∀ x, covered x (writes s') ↔
             covered x (writes s) ∨ addr ≤ x ≤ addr + size.
Proof.
  intros Hsz Hwr Hout.
  destruct (_hook_mem_write args sp addr size value (run0 s)) as [res r']
    eqn:H.
  revert H. unfold ceiling_in_force in Hout. hook_unfold. cbv zeta.
  rewrite Hwr. unfold ceiling_suppressed, in_range. intros H.
  hook_split H; inversion H; subst; stack_facts; try lia.
  all: try (exfalso; eapply addi_never_raises_on_write; eassumption).
  all: try (exfalso; apply Hout; cbn in *;
            repeat match goal with
            | E : bool_decide _ = true |- _ => rewrite E
            | E : bool_decide _ = false |- _ => rewrite E
            end; cbn; lia).
  all: cbn in *;
       match goal with
       | E : addi _ _ _ = Ok ?t |- _ =>
           eexists; (split; [reflexivity|]); cbn;
           split; [unfold record; rewrite E; reflexivity|];
           split; [done|];
           intros x; rewrite merge_overlaps_covers, (addi_covers _ _ _ _ x E);
           split; (intros [?|?]; [by left|right; lia])
       end.
Qed.

Lemma logged_write_is_recorded_witness :
  ∃ s', _hook_mem_write (Scenario.defaults [0x401000]) Scenario.sp0
          (Scenario.sp0 - 16) 4 0x6c6c6548
          (run0 (Scenario.entry_state (Scenario.defaults [0x401000])))
        = (Ok (), run0 s') ∧
        record (Scenario.sp0 - 16) 4 ∅ = Ok (writes s') ∧
        waiting s' = 0 ∧
        ∀ x, covered x (writes s') ↔
             covered x ∅ ∨ Scenario.sp0 - 16 ≤ x ≤ Scenario.sp0 - 16 + 4.
Proof.
  apply (logged_write_is_recorded (Scenario.defaults [0x401000]) Scenario.sp0
           (Scenario.sp0 - 16) 4 0x6c6c6548
           (Scenario.entry_state (Scenario.defaults [0x401000]))).
  - lia.
  - reflexivity.
  - vm_compute. intros [H _]. discriminate H.
Defined.

(** ** vstack: a call that returns before anything is written *)







(** ** vstack: the loop over the entry points *)

(** [process] works the entry points off in the order given: what the
    first ones yield is out before a later one is emulated, and an entry
    point that raises ends the loop, so that the ones behind it are not
    emulated. *)
Theorem process_loop_app
    (args : Vstack.Args) (exe : Executable) (stack_addr : Z)
    (emulate : Z → Emulation) (addrs more : list Z) :
  process_loop args exe stack_addr emulate (addrs ++ more)
  = match process_loop args exe stack_addr emulate addrs with
    | (out, Some e) => (out, Some e)
    | (out, None) =>
        let (out', e) := process_loop args exe stack_addr emulate more in
        (out ++ out', e)
    end.
Proof.
  induction addrs as [|addr addrs IH]; cbn [app process_loop].
  - by destruct (process_loop args exe stack_addr emulate more).
  - destruct (process_entry args exe stack_addr (emulate addr) addr)
      as [out|e]; [|done].
    rewrite IH.
    destruct (process_loop args exe stack_addr emulate addrs) as [out1 [e|]];
      [done|].
    destruct (process_loop args exe stack_addr emulate more) as [out2 e].
    by rewrite app_assoc.
Qed.


(** ** vstack: the page that the memory-error hook maps *)

(** The block that [_hook_mem_error] maps holds the address of the
    fault. *)
Theorem fault_mapping_holds_address (args : Vstack.Args) (addr : Z) :
  0 < block_size args →
  (fault_mapping args addr).1 ≤ addr
  < (fault_mapping args addr).1 + (fault_mapping args addr).2.
Proof.
  intros Hbs. unfold fault_mapping, align. cbn [fst snd].
  pose proof (Z.mod_pos_bound addr (block_size args) Hbs).
  repeat case_bool_decide; lia.
Qed.

Lemma fault_mapping_holds_address_witness :
  (fault_mapping (Scenario.defaults [0x401000]) 0x7FFE1234).1 ≤ 0x7FFE1234
  < (fault_mapping (Scenario.defaults [0x401000]) 0x7FFE1234).1
    + (fault_mapping (Scenario.defaults [0x401000]) 0x7FFE1234).2.
Proof.
  apply (fault_mapping_holds_address (Scenario.defaults [0x401000])
           0x7FFE1234).
  reflexivity.
Defined.

(** ** vstack: the stack-region placer *)

(** On the one-segment image the placer takes the block right above the
    image. *)
Lemma _find_stack_location_one_block_witness :
  (image_defined_address_space Scenario.image_x86).2 ≤ 0x410000 ∧
  0x410000 + stack_size (Scenario.defaults [0x401000])
    < 2 ^ pointer_size Scenario.image_x86 ∨
  0 < 0x410000 ∧
  0x410000 ≤ (image_defined_address_space Scenario.image_x86).1
             - stack_size (Scenario.defaults [0x401000]).
Proof.
  apply (_find_stack_location_one_block (Scenario.defaults [0x401000])
           Scenario.image_x86 0x410000).
  - vm_compute. discriminate.
  - reflexivity.
Defined.

(** ** recode: short inputs *)

Section RecodeShort.

Variable chardet_detect : list byte → option string.

(** An input of at most one byte has nothing at an odd offset: it is
    taken for UTF-16LE whatever the byte is, and [chardet] is not asked. *)
Theorem detect_short_input (data : list byte) :
  (length data ≤ 1)%nat →
  detect chardet_detect data = Some "utf-16le"%string.
Proof.
  destruct data as [|b [|c data]]; cbn [length]; intros Hlen;
    [done|done|lia].
Qed.

End RecodeShort.

Lemma detect_short_input_witness :
  detect (fun _ => Some "ascii"%string) ["A"%byte] = Some "utf-16le"%string.
Proof.
  apply (detect_short_input (fun _ => Some "ascii"%string) ["A"%byte]).
  cbn. lia.
Defined.
